(** * cheerio [src/utils.ts]: a shallow embedding and its verification

    The utility layer of cheerio: [isCheerio], [camelCase], [cssCase],
    [domEach], [cloneDom] and [isHtml].

    - JavaScript strings are sequences of UTF-16 code units, modelled as
      [list Z].
    - The two [String.prototype.replace] calls go through a small
      backtracking regular-expression matcher and a model of the global
      replace loop.
    - Objects live in a store ([gmap] from locations to property maps),
      so that aliasing of arrays and nodes is visible. *)

From Stdlib Require Import ZArith Lia Bool Ascii String.
From stdpp Require Import base option list gmap strings fin_maps.
From Equations Require Import Equations.

Local Open Scope Z_scope.

Set Warnings "-register-all".

(** ** JavaScript strings *)

Module JsString.

(** A string value: its UTF-16 code units. *)
Abbreviation jsstring := (list Z).

(** A literal of the source, written as a Rocq string of ASCII characters. *)
Definition lit (s : string) : jsstring :=
  map (fun a => Z.of_N (N_of_ascii a)) (list_ascii_of_string s).

(** [str.length] *)
Definition strlen (s : jsstring) : Z := Z.of_nat (length s).

(** [str.indexOf(c)] for a one-unit search string: the index of the first
    occurrence, or [-1]. *)
Fixpoint indexOf_from (c : Z) (s : jsstring) (i : Z) : Z :=
  match s with
  | [] => -1
  | x :: rest => if x =? c then i else indexOf_from c rest (i + 1)
  end.

Definition indexOf (c : Z) (s : jsstring) : Z := indexOf_from c s 0.

(** [str.charCodeAt(i)]: [None] stands for [NaN] (index out of range). *)
Definition charCodeAt (s : jsstring) (i : Z) : option Z :=
  if i <? 0 then None else s !! Z.to_nat i.

(** [str.includes(c, position)] for a one-unit search string: the search
    starts at [position] clamped to [0, length]. *)
Definition includes (c : Z) (s : jsstring) (position : Z) : bool :=
  existsb (Z.eqb c) (drop (Z.to_nat (Z.max 0 position)) s).

(** [const enum CharacterCodes] *)
Definition LowerA : Z := 97.
Definition LowerZ : Z := 122.
Definition UpperA : Z := 65.
Definition UpperZ : Z := 90.
Definition Exclamation : Z := 33.

(** The code units of [<] and [>]. *)
Definition LessThan : Z := 60.
Definition GreaterThan : Z := 62.

(** [isHtml(str)].  A comparison with [NaN] is false, so a [NaN] tag
    character makes the conjunction false. *)
Definition isHtml (str : jsstring) : bool :=
  let tagStart := indexOf LessThan str in
  if (tagStart <? 0) || (tagStart >? strlen str - 3) then false
  else
    match charCodeAt str (tagStart + 1) with
    | None => false
    | Some tagChar =>
        (((tagChar >=? LowerA) && (tagChar <=? LowerZ))
         || ((tagChar >=? UpperA) && (tagChar <=? UpperZ))
         || (tagChar =? Exclamation))
        && includes GreaterThan str (tagStart + 2)
    end.

(** The words of the specification of [isHtml]. *)

(** [i] is the position of the first [<] of [s]. *)
Definition first_lt (s : jsstring) (i : nat) : Prop :=
  s !! i = Some LessThan /\ forall j, (j < i)%nat -> s !! j <> Some LessThan.

(** An ASCII letter, [a]-[z] or [A]-[Z]. *)
Definition ascii_letter (c : Z) : Prop :=
  (97 <= c <= 122) \/ (65 <= c <= 90).

(** The markup shape the specification describes. *)
Definition looks_like_markup (s : jsstring) : Prop :=
  exists i c,
    first_lt s i
    /\ (i + 2 < length s)%nat
    /\ s !! (i + 1)%nat = Some c
    /\ (ascii_letter c \/ c = 33)
    /\ exists j, (i + 2 <= j)%nat /\ s !! j = Some GreaterThan.

(** *** Facts about the string primitives *)

Lemma indexOf_from_neg c s i :
  0 <= i -> indexOf_from c s i < 0 -> indexOf_from c s i = -1 /\ Forall (fun x => x <> c) s.
Proof.
  revert i. induction s as [|x s IH]; intros i Hi; simpl.
  - intros _. split; [reflexivity | constructor].
  - destruct (Z.eqb_spec x c) as [->|Hne]; [lia|].
    intros H. destruct (IH (i + 1) ltac:(lia) H) as [E F].
    split; [exact E | constructor; assumption].
Qed.

Lemma indexOf_from_found c s i :
  0 <= i -> 0 <= indexOf_from c s i ->
  exists k : nat,
    indexOf_from c s i = i + Z.of_nat k
    /\ s !! k = Some c
    /\ forall j, (j < k)%nat -> s !! j <> Some c.
Proof.
  revert i. induction s as [|x s IH]; intros i Hi; simpl.
  - lia.
  - destruct (Z.eqb_spec x c) as [->|Hne]; intros H.
    + exists 0%nat. split; [lia|]. split; [reflexivity|]. intros j Hj; lia.
    + destruct (IH (i + 1) ltac:(lia) H) as (k & E & Hk & Hmin).
      exists (S k). split; [lia|]. split; [exact Hk|].
      intros [|j] Hj; simpl.
      * intros [= ->]. congruence.
      * apply Hmin. lia.
Qed.

Lemma indexOf_from_first c s i (k : nat) :
  s !! k = Some c -> (forall j, (j < k)%nat -> s !! j <> Some c) ->
  indexOf_from c s i = i + Z.of_nat k.
Proof.
  revert i k. induction s as [|x s IH]; intros i k Hk Hmin.
  - destruct k; discriminate.
  - simpl. destruct k as [|k].
    + simpl in Hk. injection Hk as ->. rewrite Z.eqb_refl. lia.
    + destruct (Z.eqb_spec x c) as [->|Hne].
      * exfalso. apply (Hmin 0%nat); [lia | reflexivity].
      * rewrite (IH (i + 1) k); [lia | exact Hk |].
        intros j Hj. apply (Hmin (S j)). lia.
Qed.

Lemma includes_true c s p :
  includes c s p = true <->
  exists j : nat, (Z.to_nat (Z.max 0 p) <= j)%nat /\ s !! j = Some c.
Proof.
  unfold includes. rewrite existsb_exists. split.
  - intros (x & Hin & Heq). apply Z.eqb_eq in Heq. subst x.
    apply list_elem_of_In, list_elem_of_lookup in Hin.
    destruct Hin as [k Hk]. rewrite lookup_drop in Hk.
    exists (Z.to_nat (Z.max 0 p) + k)%nat. split; [lia | exact Hk].
  - intros (j & Hj & Hlook). exists c. split; [|apply Z.eqb_refl].
    apply list_elem_of_In, list_elem_of_lookup.
    exists (j - Z.to_nat (Z.max 0 p))%nat. rewrite lookup_drop.
    replace (Z.to_nat (Z.max 0 p) + (j - Z.to_nat (Z.max 0 p)))%nat with j by lia.
    exact Hlook.
Qed.

(** The character test of [isHtml], read as a proposition. *)
Lemma tag_char_test c :
  ((c >=? LowerA) && (c <=? LowerZ)
   || (c >=? UpperA) && (c <=? UpperZ)
   || (c =? Exclamation)) = true
  <-> ascii_letter c \/ c = 33.
Proof.
  unfold LowerA, LowerZ, UpperA, UpperZ, Exclamation, ascii_letter.
  rewrite !orb_true_iff, !andb_true_iff, !Z.geb_le, !Z.leb_le, Z.eqb_eq.
  tauto.
Qed.

(** [isHtml] on the inputs of the project's examples. *)
Example isHtml_div : isHtml (lit "<div>") = true.
Proof. reflexivity. Qed.

Example isHtml_doctype : isHtml (lit "<!doctype html>") = true.
Proof. reflexivity. Qed.

Example isHtml_space : isHtml (lit "< div>") = false.
Proof. reflexivity. Qed.

Example isHtml_unclosed : isHtml (lit "<a") = false.
Proof. reflexivity. Qed.

Example isHtml_text : isHtml (lit "text < 5 and > 3") = false.
Proof. reflexivity. Qed.

(** [isHtml] answers true exactly on the shape [looks_like_markup]. *)
Lemma isHtml_true_iff (s : jsstring) : isHtml s = true <-> looks_like_markup s.
Proof.
  unfold isHtml, looks_like_markup, indexOf, strlen, charCodeAt.
  split.
  - destruct (Z.ltb_spec (indexOf_from LessThan s 0) 0) as [Hneg|Hpos];
      [discriminate|]. simpl.
    destruct (indexOf_from_found LessThan s 0 ltac:(lia) Hpos)
      as (k & E & Hk & Hmin).
    rewrite E.
    destruct (Z.gtb_spec (0 + Z.of_nat k) (Z.of_nat (length s) - 3))
      as [Hgt|Hle]; [discriminate|].
    destruct (Z.ltb_spec (0 + Z.of_nat k + 1) 0); [lia|].
    replace (Z.to_nat (0 + Z.of_nat k + 1)) with (k + 1)%nat by lia.
    destruct (s !! (k + 1)%nat) as [c|] eqn:Hc; [|discriminate].
    intros Hb. apply andb_true_iff in Hb. destruct Hb as [Hcls Hinc].
    apply tag_char_test in Hcls.
    apply includes_true in Hinc. destruct Hinc as (j & Hj & Hgtj).
    exists k, c. split; [split; assumption|].
    split; [lia|]. split; [exact Hc|]. split; [exact Hcls|].
    exists j. split; [lia | exact Hgtj].
  - intros (i & c & [Hi Hmin] & Hlen & Hc & Hcls & j & Hj & Hgtj).
    rewrite (indexOf_from_first LessThan s 0 i Hi Hmin).
    destruct (Z.ltb_spec (0 + Z.of_nat i) 0); [lia|]. simpl.
    destruct (Z.gtb_spec (0 + Z.of_nat i) (Z.of_nat (length s) - 3)); [lia|].
    destruct (Z.ltb_spec (0 + Z.of_nat i + 1) 0); [lia|].
    replace (Z.to_nat (0 + Z.of_nat i + 1)) with (i + 1)%nat by lia.
    rewrite Hc. apply andb_true_iff. split.
    + apply tag_char_test. exact Hcls.
    + apply includes_true. exists j. split; [lia | exact Hgtj].
Qed.

(** C1. For every string, [isHtml] answers true exactly when the first [<]
    exists with at least two characters after it, the character right after
    it is an ASCII letter or [!], and a [>] occurs at two positions past
    that [<] or later; in every other case it answers false. *)
Theorem isHtml_iff_markup (s : jsstring) :
  (isHtml s = true <-> looks_like_markup s)
  /\ (isHtml s = false <-> ~ looks_like_markup s).
Proof.
  split; [apply isHtml_true_iff|].
  rewrite <- isHtml_true_iff. destruct (isHtml s); split; intros; congruence.
Qed.

(** X1. A string of fewer than three code units is never markup: there is no
    room for [<], a tag character and [>]. *)
Theorem isHtml_short_is_false (s : jsstring) :
  (length s < 3)%nat -> isHtml s = false.
Proof.
  intros Hlen. destruct (isHtml s) eqn:E; [|reflexivity].
  apply isHtml_true_iff in E. destruct E as (i & c & _ & Hi & _). lia.
Qed.

Lemma isHtml_short_is_false_witness : isHtml (lit "<a") = false.
Proof. apply isHtml_short_is_false. simpl. lia. Defined.

(** X2. Text appended to a string that is markup leaves it markup. *)
Theorem isHtml_append (s t : jsstring) :
  isHtml s = true -> isHtml (s ++ t) = true.
Proof.
  rewrite !isHtml_true_iff.
  intros (i & c & [Hi Hmin] & Hlen & Hc & Hcls & j & Hj & Hgtj).
  exists i, c. split; [split|].
  - apply lookup_app_l_Some. exact Hi.
  - intros k Hk. rewrite lookup_app_l by lia. apply Hmin. exact Hk.
  - split; [rewrite length_app; lia|].
    split; [apply lookup_app_l_Some; exact Hc|].
    split; [exact Hcls|].
    exists j. split; [exact Hj | apply lookup_app_l_Some; exact Hgtj].
Qed.

Lemma isHtml_append_witness : isHtml (lit "<b>" ++ lit " and more") = true.
Proof. apply isHtml_append. reflexivity. Defined.

(** X3. Text without a [<] in front of a string does not change the answer:
    only what starts at the first [<] counts. *)
Theorem isHtml_skips_leading_text (pre s : jsstring) :
  Forall (fun c => c <> LessThan) pre -> isHtml (pre ++ s) = isHtml s.
Proof.
  intros Hpre.
  assert (H : looks_like_markup (pre ++ s) <-> looks_like_markup s).
  { assert (Hno : forall k, (k < length pre)%nat -> (pre ++ s) !! k <> Some LessThan).
    { intros k Hk. rewrite lookup_app_l by exact Hk. intros Hk'.
      apply list_elem_of_lookup_2 in Hk'.
      rewrite Forall_forall in Hpre. exact (Hpre _ Hk' eq_refl). }
    split.
    - intros (i & c & [Hi Hmin] & Hlen & Hc & Hcls & j & Hj & Hgtj).
      assert (Hge : (length pre <= i)%nat).
      { destruct (Nat.le_gt_cases (length pre) i) as [H|H]; [exact H|].
        exfalso. exact (Hno i H Hi). }
      exists (i - length pre)%nat, c. split; [split|].
      + rewrite lookup_app_r in Hi by exact Hge. exact Hi.
      + intros k Hk. specialize (Hmin (length pre + k)%nat ltac:(lia)).
        rewrite lookup_app_r in Hmin by lia.
        replace (length pre + k - length pre)%nat with k in Hmin by lia.
        exact Hmin.
      + rewrite length_app in Hlen. split; [lia|].
        rewrite lookup_app_r in Hc by lia.
        replace (i + 1 - length pre)%nat with (i - length pre + 1)%nat in Hc by lia.
        split; [exact Hc|]. split; [exact Hcls|].
        exists (j - length pre)%nat. split; [lia|].
        rewrite lookup_app_r in Hgtj by lia. exact Hgtj.
    - intros (i & c & [Hi Hmin] & Hlen & Hc & Hcls & j & Hj & Hgtj).
      exists (length pre + i)%nat, c. split; [split|].
      + rewrite lookup_app_r by lia.
        replace (length pre + i - length pre)%nat with i by lia. exact Hi.
      + intros k Hk. destruct (Nat.le_gt_cases (length pre) k) as [H|H].
        * rewrite lookup_app_r by exact H. apply Hmin. lia.
        * apply Hno. exact H.
      + rewrite length_app. split; [lia|]. split.
        * rewrite lookup_app_r by lia.
          replace (length pre + i + 1 - length pre)%nat with (i + 1)%nat by lia.
          exact Hc.
        * split; [exact Hcls|]. exists (length pre + j)%nat. split; [lia|].
          rewrite lookup_app_r by lia.
          replace (length pre + j - length pre)%nat with j by lia. exact Hgtj. }
  rewrite <- !isHtml_true_iff in H.
  destruct (isHtml (pre ++ s)), (isHtml s); try reflexivity.
  - symmetry. apply H. reflexivity.
  - apply H. reflexivity.
Qed.

Lemma isHtml_skips_leading_text_witness :
  isHtml (lit "say " ++ lit "<b>hi</b>") = isHtml (lit "<b>hi</b>").
Proof. apply isHtml_skips_leading_text. repeat constructor; discriminate. Defined.

End JsString.

(** ** Completions: a value, or a thrown error *)

Inductive error := TypeError | RangeError.

Inductive completion (A : Type) :=
| Normal (a : A)
| Throw (e : error).

Arguments Normal {A} a.
Arguments Throw {A} e.

#[global] Instance completion_ret : MRet completion := fun A a => Normal a.

#[global] Instance completion_bind : MBind completion := fun A B f c =>
  match c with
  | Normal a => f a
  | Throw e => Throw e
  end.

(** ** Regular expressions and [String.prototype.replace] *)

Module Regex.

Import JsString.

(** The fragment of the pattern language the source uses: a character
    class, the assertion [$] (no [m] flag: end of input), concatenation,
    alternation and one capture group. *)
Inductive regex :=
| RClass (p : Z -> bool)
| REnd
| RSeq (r1 r2 : regex)
| RAlt (r1 r2 : regex)
| RGroup (r : regex).

(** Backtracking matcher in continuation-passing style, anchored at the
    head of [s].  The continuation receives the input that is left and the
    text captured by the group; an alternation tries its left branch first
    and falls back to the right one when the rest of the pattern fails.
    None of the patterns looks behind the current position, so matching at
    an index of a string is matching at the head of the suffix from there. *)
Fixpoint rmatch {R : Type} (r : regex) (s : jsstring) (cap : option jsstring)
    (k : jsstring -> option jsstring -> option R) : option R :=
  match r with
  | RClass p =>
      match s with
      | c :: rest => if p c then k rest cap else None
      | [] => None
      end
  | REnd =>
      match s with
      | [] => k [] cap
      | _ :: _ => None
      end
  | RSeq r1 r2 => rmatch r1 s cap (fun s' cap' => rmatch r2 s' cap' k)
  | RAlt r1 r2 =>
      match rmatch r1 s cap k with
      | Some x => Some x
      | None => rmatch r2 s cap k
      end
  | RGroup r1 =>
      rmatch r1 s cap
        (fun s' _ => k s' (Some (take (length s - length s') s)))
  end.

(** What a successful match hands to the replacer: the matched text
    ([$&], the callback's first argument), the text of group 1 ([None]
    when the group did not take part: [undefined]) and the input after
    the match. *)
Record match_result := MatchResult {
  matched : jsstring;
  group1 : option jsstring;
  rest : jsstring
}.

Definition exec_here (r : regex) (s : jsstring) : option match_result :=
  rmatch r s None
    (fun s' cap =>
       Some {| matched := take (length s - length s') s;
               group1 := cap;
               rest := s' |}).

(** [str.replace(re, fn)] with the [g] flag, scanning from index 0.
    [skip] counts the code units of the previous match that are still to be
    passed over.  At a free position the pattern is tried: a match
    contributes the replacement and the scan resumes after it (after one
    copied unit when the match is empty); otherwise the unit is copied. *)
Fixpoint replace_from (r : regex) (fn : match_result -> completion jsstring)
    (s : jsstring) (skip : nat) : completion jsstring :=
  match skip with
  | S n =>
      match s with
      | [] => Normal []
      | _ :: s' => replace_from r fn s' n
      end
  | O =>
      match exec_here r s with
      | Some m =>
          rep ← fn m;
          match s with
          | [] => Normal rep
          | c :: s' =>
              match matched m with
              | [] => tl ← replace_from r fn s' 0%nat; Normal (rep ++ c :: tl)
              | _ :: mm => tl ← replace_from r fn s' (length mm); Normal (rep ++ tl)
              end
          end
      | None =>
          match s with
          | [] => Normal []
          | c :: s' => tl ← replace_from r fn s' 0%nat; Normal (c :: tl)
          end
      end
  end.

Definition replace_global (r : regex) (fn : match_result -> completion jsstring)
    (s : jsstring) : completion jsstring :=
  replace_from r fn s 0%nat.

(** A replacement given as a string: the part of [GetSubstitution] for the
    forms [$$] (a dollar sign) and [$&] (the matched text); every other
    code unit stands for itself. *)
Fixpoint substitute (template : jsstring) (m : match_result) : jsstring :=
  match template with
  | 36 :: 38 :: t => matched m ++ substitute t m
  | 36 :: 36 :: t => 36 :: substitute t m
  | c :: t => c :: substitute t m
  | [] => []
  end.

End Regex.

(** ** Case conversion *)

Module Case.

Import JsString Regex.

(** ASCII code units. *)
Definition is_ascii (c : Z) : Prop := 0 <= c < 128.

Definition ascii_upper (c : Z) : Z :=
  if (97 <=? c) && (c <=? 122) then c - 32 else c.

Definition ascii_lower (c : Z) : Z :=
  if (65 <=? c) && (c <=? 90) then c + 32 else c.

(** [String.prototype.toUpperCase] and [toLowerCase] are the runtime's
    Unicode case mappings.  The development fixes only what they do on
    ASCII text: letters change case, everything else stays. *)
Class CaseMapping := {
  toUpperCase : jsstring -> jsstring;
  toLowerCase : jsstring -> jsstring;
  toUpperCase_ascii : forall s, Forall is_ascii s -> toUpperCase s = map ascii_upper s;
  toLowerCase_ascii : forall s, Forall is_ascii s -> toLowerCase s = map ascii_lower s
}.

(** The character classes of the two patterns. *)

(** [[_.-]] *)
Definition is_sep (c : Z) : bool := (c =? 95) || (c =? 46) || (c =? 45).

(** [\w]: [[A-Za-z0-9_]] *)
Definition is_word (c : Z) : bool :=
  ((97 <=? c) && (c <=? 122)) || ((65 <=? c) && (c <=? 90))
  || ((48 <=? c) && (c <=? 57)) || (c =? 95).

(** [[A-Z]] *)
Definition is_upper (c : Z) : bool := (65 <=? c) && (c <=? 90).

(** [/[_.-](\w|$)/] *)
Definition camel_re : regex :=
  RSeq (RClass is_sep) (RGroup (RAlt (RClass is_word) REnd)).

(** [/[A-Z]/] *)
Definition upper_re : regex := RClass is_upper.

Section WithCaseMapping.

Context {cm : CaseMapping}.

(** [(_, x) => x.toUpperCase()]: a method call on [undefined] throws. *)
Definition camel_replacer (m : match_result) : completion jsstring :=
  match group1 m with
  | Some x => Normal (toUpperCase x)
  | None => Throw TypeError
  end.

(** [camelCase(str)] *)
Definition camelCase (str : jsstring) : completion jsstring :=
  replace_global camel_re camel_replacer str.

(** [cssCase(str)]: the replacement is the string ['-$&']. *)
Definition cssCase (str : jsstring) : completion jsstring :=
  s ← replace_global upper_re (fun m => Normal (substitute (lit "-$&") m)) str;
  Normal (toLowerCase s).

(** The words of the specification. *)

(** [toCamel] as the specification words it: a separator followed by a
    character, whatever it is, gives way to that character uppercased; a
    separator that ends the string is dropped. *)
Fixpoint toCamel_any (s : jsstring) : jsstring :=
  match s with
  | [] => []
  | c :: rest =>
      if is_sep c then
        match rest with
        | [] => []
        | d :: rest' => toUpperCase [d] ++ toCamel_any rest'
        end
      else c :: toCamel_any rest
  end.

(** [toCamel] with the follower restricted to a word character (an ASCII
    letter, a digit or the underscore); a separator followed by anything
    else stays where it is. *)
Fixpoint toCamel_word (s : jsstring) : jsstring :=
  match s with
  | [] => []
  | c :: rest =>
      if is_sep c then
        match rest with
        | [] => []
        | d :: rest' =>
            if is_word d then toUpperCase [d] ++ toCamel_word rest'
            else c :: toCamel_word rest
        end
      else c :: toCamel_word rest
  end.

(** A hyphen before every uppercase letter [A]-[Z]. *)
Fixpoint hyphenate (s : jsstring) : jsstring :=
  match s with
  | [] => []
  | c :: rest => if is_upper c then 45 :: c :: hyphenate rest else c :: hyphenate rest
  end.

End WithCaseMapping.

(** A runtime whose case mappings touch ASCII letters only. *)
Definition ascii_case : CaseMapping := {|
  toUpperCase := map ascii_upper;
  toLowerCase := map ascii_lower;
  toUpperCase_ascii := fun s _ => eq_refl;
  toLowerCase_ascii := fun s _ => eq_refl
|}.

(** *** The matcher on the two patterns *)

Lemma take_consumed (pre s' : jsstring) :
  take (length (pre ++ s') - length s') (pre ++ s') = pre.
Proof.
  rewrite length_app.
  replace (length pre + length s' - length s')%nat with (length pre) by lia.
  apply take_app_length.
Qed.

Lemma exec_camel_nil : exec_here camel_re [] = None.
Proof. reflexivity. Qed.

Lemma exec_camel_other c s :
  is_sep c = false -> exec_here camel_re (c :: s) = None.
Proof. intros H. unfold exec_here, camel_re. simpl. rewrite H. reflexivity. Qed.

Lemma exec_camel_last c :
  is_sep c = true ->
  exec_here camel_re [c] = Some (MatchResult [c] (Some []) []).
Proof. intros H. unfold exec_here, camel_re. simpl. rewrite H. reflexivity. Qed.

Lemma exec_camel_word c d s :
  is_sep c = true -> is_word d = true ->
  exec_here camel_re (c :: d :: s) = Some (MatchResult [c; d] (Some [d]) s).
Proof.
  intros Hc Hd. unfold exec_here, camel_re.
  cbn [rmatch]. rewrite Hc. cbn [rmatch]. rewrite Hd.
  f_equal. f_equal.
  - exact (take_consumed [c; d] s).
  - f_equal. exact (take_consumed [d] s).
Qed.

Lemma exec_camel_nonword c d s :
  is_sep c = true -> is_word d = false ->
  exec_here camel_re (c :: d :: s) = None.
Proof.
  intros Hc Hd. unfold exec_here, camel_re.
  cbn [rmatch]. rewrite Hc. cbn [rmatch]. rewrite Hd. reflexivity.
Qed.

Lemma exec_upper_nil : exec_here upper_re [] = None.
Proof. reflexivity. Qed.

Lemma exec_upper_cons c s :
  exec_here upper_re (c :: s)
  = if is_upper c then Some (MatchResult [c] None s) else None.
Proof.
  unfold exec_here, upper_re. cbn [rmatch].
  destruct (is_upper c); [|reflexivity].
  f_equal. f_equal. exact (take_consumed [c] s).
Qed.

Section CaseProofs.

Context {cm : CaseMapping}.

(** The replace loop of [camelCase], one input shape at a time. *)
Lemma camel_step_nil :
  replace_from camel_re camel_replacer [] 0 = Normal [].
Proof. reflexivity. Qed.

Lemma camel_step_other c s :
  is_sep c = false ->
  replace_from camel_re camel_replacer (c :: s) 0
  = tl ← replace_from camel_re camel_replacer s 0%nat; Normal (c :: tl).
Proof. intros H. cbn [replace_from]. rewrite (exec_camel_other c s H). reflexivity. Qed.

Lemma camel_step_last c :
  is_sep c = true ->
  replace_from camel_re camel_replacer [c] 0 = Normal (toUpperCase []).
Proof.
  intros H. cbn [replace_from]. rewrite (exec_camel_last c H).
  cbn. rewrite app_nil_r. reflexivity.
Qed.

Lemma camel_step_word c d s :
  is_sep c = true -> is_word d = true ->
  replace_from camel_re camel_replacer (c :: d :: s) 0
  = tl ← replace_from camel_re camel_replacer s 0%nat;
    Normal (toUpperCase [d] ++ tl).
Proof.
  intros Hc Hd. cbn [replace_from]. rewrite (exec_camel_word c d s Hc Hd).
  reflexivity.
Qed.

Lemma camel_step_nonword c d s :
  is_sep c = true -> is_word d = false ->
  replace_from camel_re camel_replacer (c :: d :: s) 0
  = tl ← replace_from camel_re camel_replacer (d :: s) 0%nat; Normal (c :: tl).
Proof.
  intros Hc Hd. cbn [replace_from]. rewrite (exec_camel_nonword c d s Hc Hd).
  reflexivity.
Qed.

Lemma toUpperCase_empty : toUpperCase [] = [].
Proof. rewrite toUpperCase_ascii; [reflexivity | constructor]. Qed.

Lemma camelCase_toCamel_word (s : jsstring) :
  camelCase s = Normal (toCamel_word s).
Proof.
  unfold camelCase, replace_global.
  remember (length s) as n eqn:Hn.
  revert s Hn. induction n as [n IH] using lt_wf_ind. intros s Hn.
  destruct s as [|c s]; [reflexivity|].
  destruct (is_sep c) eqn:Hc.
  - destruct s as [|d s].
    + rewrite (camel_step_last c Hc), toUpperCase_empty. simpl.
      rewrite Hc. reflexivity.
    + destruct (is_word d) eqn:Hd.
      * rewrite (camel_step_word c d s Hc Hd).
        rewrite (IH (length s)); [|simpl in Hn; lia|reflexivity].
        cbn [toCamel_word]. rewrite Hc, Hd. reflexivity.
      * rewrite (camel_step_nonword c d s Hc Hd).
        rewrite (IH (length (d :: s))); [|simpl in *; lia|reflexivity].
        cbn [toCamel_word]. rewrite Hc, Hd. reflexivity.
  - rewrite (camel_step_other c s Hc).
    rewrite (IH (length s)); [|simpl in Hn; lia|reflexivity].
    cbn [toCamel_word]. rewrite Hc. reflexivity.
Qed.

(** The replace loop of [cssCase]. *)
Lemma css_replace_hyphenate (s : jsstring) :
  replace_global upper_re (fun m => Normal (substitute (lit "-$&") m)) s
  = Normal (hyphenate s).
Proof.
  unfold replace_global. induction s as [|c s IH]; [reflexivity|].
  cbn [replace_from]. rewrite exec_upper_cons.
  cbn [hyphenate]. destruct (is_upper c).
  - cbn [mbind completion_bind matched length].
    cbn [replace_from]. rewrite IH. reflexivity.
  - rewrite IH. reflexivity.
Qed.

Lemma cssCase_hyphenate (s : jsstring) :
  cssCase s = Normal (toLowerCase (hyphenate s)).
Proof. unfold cssCase. rewrite css_replace_hyphenate. reflexivity. Qed.

End CaseProofs.

Ltac all_ascii := repeat constructor; unfold is_ascii; lia.

(** C4 (as amended). For every string, [camelCase] replaces, scanning left
    to right, each separator [_], [.] or [-] that is followed by a word
    character (an ASCII letter, a digit or an underscore) by that character
    uppercased, drops a separator that is the last character of the string,
    and leaves a separator followed by any other character in place; in
    particular "foo-bar" gives "fooBar", "foo.bar_baz" gives "fooBarBaz"
    and "foo-" gives "foo". *)
Theorem camelCase_word_separators {cm : CaseMapping} :
  (forall s : jsstring, camelCase s = Normal (toCamel_word s))
  /\ camelCase (lit "foo-bar") = Normal (lit "fooBar")
  /\ camelCase (lit "foo.bar_baz") = Normal (lit "fooBarBaz")
  /\ camelCase (lit "foo-") = Normal (lit "foo").
Proof.
  split; [exact camelCase_toCamel_word|].
  rewrite !camelCase_toCamel_word. cbv -[toUpperCase].
  rewrite !toUpperCase_ascii by all_ascii.
  repeat split; reflexivity.
Qed.

(** C4, on the ASCII-only runtime and the input "x-y". *)
Lemma camelCase_word_separators_witness :
  @camelCase ascii_case (lit "x-y") = Normal (@toCamel_word ascii_case (lit "x-y")).
Proof. exact (proj1 (@camelCase_word_separators ascii_case) (lit "x-y")). Defined.

(** C4 as stated fails: in "foo- bar" the separator is followed by a
    character (a space), yet [camelCase] returns the string unchanged,
    where the stated rule gives "foo bar"; this holds whatever the
    runtime's case mappings are. *)
Lemma camelCase_keeps_separator_before_nonword :
  ~ (exists cm : CaseMapping,
       @camelCase cm (lit "foo- bar") = Normal (@toCamel_any cm (lit "foo- bar"))).
Proof.
  intros [cm H]. rewrite camelCase_toCamel_word in H.
  cbv -[toUpperCase] in H. rewrite toUpperCase_ascii in H by all_ascii.
  discriminate H.
Qed.

(** C5. For every string, [cssCase] is the result of inserting a hyphen
    immediately before every uppercase letter ([A]-[Z], the class of the
    pattern) and then lowercasing the entire result; in particular
    "fooBar" gives "foo-bar" and "FooBar" gives "-foo-bar", with a leading
    hyphen. *)
Theorem cssCase_hyphen_then_lower {cm : CaseMapping} :
  (forall s : jsstring, cssCase s = Normal (toLowerCase (hyphenate s)))
  /\ cssCase (lit "fooBar") = Normal (lit "foo-bar")
  /\ cssCase (lit "FooBar") = Normal (lit "-foo-bar").
Proof.
  split; [exact cssCase_hyphenate|].
  rewrite !cssCase_hyphenate. cbv -[toLowerCase].
  rewrite !toLowerCase_ascii by all_ascii.
  split; reflexivity.
Qed.

(** C5, on the ASCII-only runtime and the input "aB". *)
Lemma cssCase_hyphen_then_lower_witness :
  @cssCase ascii_case (lit "aB") = Normal (lit "a-b").
Proof. exact (proj1 (@cssCase_hyphen_then_lower ascii_case) (lit "aB")). Defined.

(** *** Further properties of the case converters *)

(** Boolean tests on code units, read as arithmetic. *)
Ltac zbool :=
  unfold is_sep, is_word, is_upper, ascii_upper, ascii_lower, is_ascii in *;
  repeat match goal with
  | H : _ = true |- _ =>
      first [ rewrite andb_true_iff in H | rewrite orb_true_iff in H
            | rewrite Z.leb_le in H | rewrite Z.eqb_eq in H ]
  | H : _ = false |- _ =>
      first [ rewrite andb_false_iff in H | rewrite orb_false_iff in H
            | rewrite Z.leb_gt in H | rewrite Z.eqb_neq in H ]
  | H : _ /\ _ |- _ => destruct H
  end.

(** An ASCII letter or digit. *)
Definition is_alnum (c : Z) : bool :=
  ((97 <=? c) && (c <=? 122)) || ((65 <=? c) && (c <=? 90))
  || ((48 <=? c) && (c <=? 57)).

Lemma word_is_ascii d : is_word d = true -> is_ascii d.
Proof. intros H. zbool. unfold is_ascii. lia. Qed.

Section CaseProperties.

Context {cm : CaseMapping}.

Lemma toUpperCase_word d :
  is_word d = true -> toUpperCase [d] = [ascii_upper d].
Proof.
  intros H. rewrite toUpperCase_ascii; [reflexivity|].
  constructor; [apply word_is_ascii; exact H | constructor].
Qed.

Lemma toCamel_word_length (s : jsstring) :
  (length (toCamel_word s) <= length s)%nat.
Proof.
  remember (length s) as n eqn:Hn. revert s Hn.
  induction n as [n IH] using lt_wf_ind. intros s Hn.
  destruct s as [|c s]; [simpl; lia|].
  cbn [toCamel_word]. destruct (is_sep c).
  - destruct s as [|d s]; [simpl; lia|].
    destruct (is_word d) eqn:Hd.
    + rewrite (toUpperCase_word d Hd). cbn [app length].
      pose proof (IH (length s) ltac:(simpl in Hn; lia) s eq_refl).
      simpl in Hn. lia.
    + cbn [length].
      pose proof (IH (length (d :: s)) ltac:(simpl in *; lia) (d :: s) eq_refl).
      simpl in *. lia.
  - cbn [length].
    pose proof (IH (length s) ltac:(simpl in Hn; lia) s eq_refl).
    simpl in Hn. lia.
Qed.

(** X4. [camelCase] returns for every string, and never a longer one: the
    group of the pattern always takes part in a match, so the replacer's
    method call is never on [undefined]. *)
Theorem camelCase_never_longer (s : jsstring) :
  exists r, camelCase s = Normal r /\ (length r <= length s)%nat.
Proof.
  exists (toCamel_word s). split; [apply camelCase_toCamel_word|].
  apply toCamel_word_length.
Qed.

(** X5. A string without a separator [_], [.] or [-] comes back unchanged. *)
Theorem camelCase_without_separator (s : jsstring) :
  Forall (fun c => is_sep c = false) s -> camelCase s = Normal s.
Proof.
  intros H. rewrite camelCase_toCamel_word. f_equal.
  induction H as [|c s Hc _ IH]; [reflexivity|].
  cbn [toCamel_word]. rewrite Hc, IH. reflexivity.
Qed.

Lemma hyphenate_ascii (s : jsstring) :
  Forall is_ascii s -> Forall is_ascii (hyphenate s).
Proof.
  induction 1 as [|c s Hc _ IH]; [constructor|].
  cbn [hyphenate]. destruct (is_upper c).
  - constructor; [unfold is_ascii; lia|].
    constructor; [exact Hc | exact IH].
  - constructor; [exact Hc | exact IH].
Qed.

Lemma alnum_is_ascii (s : jsstring) :
  Forall (fun c => is_alnum c = true) s -> Forall is_ascii s.
Proof.
  intros Hs. eapply Forall_impl; [exact Hs|].
  intros c H. unfold is_alnum in H. zbool.
  repeat match goal with H : _ \/ _ |- _ => destruct H end; zbool; lia.
Qed.

Lemma toCamel_word_of_css (s : jsstring) :
  Forall (fun c => is_alnum c = true) s ->
  toCamel_word (map ascii_lower (hyphenate s)) = s.
Proof.
  induction 1 as [|c s Hc _ IH]; [reflexivity|].
  cbn [hyphenate]. destruct (is_upper c) eqn:Hu.
  - assert (Hl : ascii_lower c = c + 32).
    { unfold ascii_lower. unfold is_upper in Hu. rewrite Hu. reflexivity. }
    assert (Hw : is_word (c + 32) = true).
    { unfold is_word. zbool.
      replace (97 <=? c + 32) with true by (symmetry; apply Z.leb_le; lia).
      replace (c + 32 <=? 122) with true by (symmetry; apply Z.leb_le; lia).
      reflexivity. }
    assert (Hup : ascii_upper (c + 32) = c).
    { unfold ascii_upper. zbool.
      replace (97 <=? c + 32) with true by (symmetry; apply Z.leb_le; lia).
      replace (c + 32 <=? 122) with true by (symmetry; apply Z.leb_le; lia).
      simpl. lia. }
    cbn [map]. rewrite Hl.
    change (ascii_lower 45) with 45.
    cbn [toCamel_word]. change (is_sep 45) with true. cbv iota.
    rewrite Hw, (toUpperCase_word _ Hw), Hup, IH. reflexivity.
  - assert (Hl : ascii_lower c = c).
    { unfold ascii_lower. unfold is_upper in Hu. rewrite Hu. reflexivity. }
    assert (Hs : is_sep c = false).
    { unfold is_alnum in Hc. unfold is_sep. zbool.
      repeat match goal with H : _ \/ _ |- _ => destruct H end; zbool;
        rewrite !orb_false_iff, !Z.eqb_neq; lia. }
    cbn [map]. rewrite Hl. cbn [toCamel_word]. rewrite Hs, IH. reflexivity.
Qed.

(** X6. Round trip: a name made of ASCII letters and digits, taken to CSS
    case and back to camel case, is the name again. *)
Theorem camelCase_of_cssCase (s : jsstring) :
  Forall (fun c => is_alnum c = true) s ->
  (cssCase s ≫= camelCase) = Normal s.
Proof.
  intros H. rewrite cssCase_hyphenate. cbn [mbind completion_bind].
  rewrite toLowerCase_ascii by (apply hyphenate_ascii, alnum_is_ascii; exact H).
  rewrite camelCase_toCamel_word, toCamel_word_of_css by exact H.
  reflexivity.
Qed.

(** X8. Without a letter [A]-[Z], [cssCase] is [toLowerCase]. *)
Theorem cssCase_without_uppercase (s : jsstring) :
  Forall (fun c => is_upper c = false) s -> cssCase s = Normal (toLowerCase s).
Proof.
  intros H. rewrite cssCase_hyphenate. do 2 f_equal.
  induction H as [|c s Hc _ IH]; [reflexivity|].
  cbn [hyphenate]. rewrite Hc, IH. reflexivity.
Qed.

(** X9. On ASCII text the result of [cssCase] has no letter [A]-[Z] left. *)
Theorem cssCase_ascii_is_lowercase (s : jsstring) :
  Forall is_ascii s ->
  exists r, cssCase s = Normal r /\ Forall (fun c => is_upper c = false) r.
Proof.
  intros H. exists (map ascii_lower (hyphenate s)). split.
  - rewrite cssCase_hyphenate, toLowerCase_ascii by (apply hyphenate_ascii; exact H).
    reflexivity.
  - apply Forall_forall. intros x Hx. apply list_elem_of_fmap in Hx.
    destruct Hx as (c & -> & _). unfold ascii_lower, is_upper.
    destruct ((65 <=? c) && (c <=? 90)) eqn:E; [|exact E].
    zbool. apply andb_false_iff. right. apply Z.leb_gt. lia.
Qed.

(** A name in CSS case: lowercase ASCII letters, digits and hyphens, every
    hyphen followed by a lowercase letter or by another hyphen. *)
Definition is_lower (c : Z) : bool := (97 <=? c) && (c <=? 122).

Definition is_digit (c : Z) : bool := (48 <=? c) && (c <=? 57).

Fixpoint css_name (s : jsstring) : bool :=
  match s with
  | [] => true
  | c :: rest =>
      (if c =? 45
       then match rest with
            | d :: _ => is_lower d || (d =? 45)
            | [] => false
            end
       else is_lower c || is_digit c)
      && css_name rest
  end.

Lemma toCamel_word_sep_word c d s :
  is_sep c = true -> is_word d = true ->
  toCamel_word (c :: d :: s) = toUpperCase [d] ++ toCamel_word s.
Proof. intros Hc Hd. cbn [toCamel_word]. rewrite Hc, Hd. reflexivity. Qed.

Lemma toCamel_word_sep_nonword c d s :
  is_sep c = true -> is_word d = false ->
  toCamel_word (c :: d :: s) = c :: toCamel_word (d :: s).
Proof. intros Hc Hd. cbn [toCamel_word]. rewrite Hc, Hd. reflexivity. Qed.

Lemma toCamel_word_other c s :
  is_sep c = false -> toCamel_word (c :: s) = c :: toCamel_word s.
Proof. intros Hc. cbn [toCamel_word]. rewrite Hc. reflexivity. Qed.

Lemma hyphenate_of_camel (s : jsstring) :
  css_name s = true ->
  map ascii_lower (hyphenate (toCamel_word s)) = s.
Proof.
  remember (length s) as n eqn:Hn. revert s Hn.
  induction n as [n IH] using lt_wf_ind. intros s Hn Hcss.
  destruct s as [|c s]; [reflexivity|].
  cbn [css_name] in Hcss. apply andb_true_iff in Hcss. destruct Hcss as [Hc Hrest].
  destruct (Z.eqb_spec c 45) as [->|Hne].
  - destruct s as [|d s]; [discriminate|].
    apply orb_true_iff in Hc. destruct Hc as [Hd|Hd].
    + assert (Hw : is_word d = true).
      { unfold is_word. unfold is_lower in Hd. rewrite Hd. reflexivity. }
      assert (Hup : ascii_upper d = d - 32).
      { unfold ascii_upper. unfold is_lower in Hd. rewrite Hd. reflexivity. }
      assert (Hu : is_upper (d - 32) = true).
      { unfold is_lower in Hd. unfold is_upper. zbool.
        apply andb_true_iff. split; apply Z.leb_le; lia. }
      assert (Hlow : ascii_lower (d - 32) = d).
      { unfold ascii_lower. unfold is_upper in Hu. rewrite Hu. lia. }
      rewrite (toCamel_word_sep_word 45 d s eq_refl Hw).
      rewrite (toUpperCase_word d Hw), Hup. cbn [app hyphenate].
      rewrite Hu. cbn [map]. change (ascii_lower 45) with 45. rewrite Hlow.
      cbn [css_name] in Hrest. apply andb_true_iff in Hrest.
      rewrite (IH (length s) ltac:(simpl in Hn; lia) s eq_refl (proj2 Hrest)).
      reflexivity.
    + apply Z.eqb_eq in Hd. subst d.
      rewrite (toCamel_word_sep_nonword 45 45 s eq_refl eq_refl).
      cbn [hyphenate]. change (is_upper 45) with false. cbv iota. cbn [map].
      change (ascii_lower 45) with 45.
      rewrite (IH (length (45 :: s)) ltac:(simpl in *; lia) (45 :: s) eq_refl Hrest).
      reflexivity.
  - assert (Hs : is_sep c = false).
    { unfold is_sep. unfold is_lower, is_digit in Hc.
      apply orb_true_iff in Hc. rewrite !orb_false_iff, !Z.eqb_neq.
      destruct Hc; zbool; lia. }
    assert (Hu : is_upper c = false).
    { unfold is_upper. unfold is_lower, is_digit in Hc.
      apply orb_true_iff in Hc. apply andb_false_iff.
      destruct Hc; zbool; [right | left]; apply Z.leb_gt; lia. }
    assert (Hl : ascii_lower c = c).
    { unfold ascii_lower. unfold is_upper in Hu. rewrite Hu. reflexivity. }
    rewrite (toCamel_word_other c s Hs). cbn [hyphenate]. rewrite Hu. cbn [map].
    rewrite Hl, (IH (length s) ltac:(simpl in Hn; lia) s eq_refl Hrest).
    reflexivity.
Qed.

Lemma css_name_ascii (s : jsstring) : css_name s = true -> Forall is_ascii s.
Proof.
  induction s as [|c s IH]; [constructor|].
  cbn [css_name]. intros H. apply andb_true_iff in H. destruct H as [Hc Hrest].
  constructor; [|apply IH; exact Hrest].
  destruct (Z.eqb_spec c 45) as [->|_]; [unfold is_ascii; lia|].
  unfold is_lower, is_digit in Hc. apply orb_true_iff in Hc.
  destruct Hc; zbool; lia.
Qed.

Lemma toCamel_word_ascii (s : jsstring) :
  Forall is_ascii s -> Forall is_ascii (toCamel_word s).
Proof.
  remember (length s) as n eqn:Hn. revert s Hn.
  induction n as [n IH] using lt_wf_ind. intros s Hn Hs.
  destruct s as [|c s]; [constructor|].
  apply Forall_cons in Hs. destruct Hs as [Hc Hs].
  cbn [toCamel_word]. destruct (is_sep c).
  - destruct s as [|d s]; [constructor|].
    apply Forall_cons in Hs. destruct Hs as [Hd Hs].
    destruct (is_word d) eqn:Hw.
    + rewrite (toUpperCase_word d Hw). cbn [app]. constructor.
      * unfold ascii_upper. destruct ((97 <=? d) && (d <=? 122)) eqn:E;
          [|exact Hd]. zbool. lia.
      * apply (IH (length s)); [simpl in Hn; lia | reflexivity | exact Hs].
    + constructor; [exact Hc|].
      apply (IH (length (d :: s))); [simpl in *; lia | reflexivity |].
      constructor; assumption.
  - constructor; [exact Hc|].
    apply (IH (length s)); [simpl in Hn; lia | reflexivity | exact Hs].
Qed.

(** X7. Round trip, the other way: a name in CSS case, taken to camel case
    and back, is the name again. *)
Theorem cssCase_of_camelCase (s : jsstring) :
  css_name s = true -> (camelCase s ≫= cssCase) = Normal s.
Proof.
  intros H. rewrite camelCase_toCamel_word. cbn [mbind completion_bind].
  rewrite cssCase_hyphenate.
  rewrite toLowerCase_ascii
    by (apply hyphenate_ascii, toCamel_word_ascii, css_name_ascii; exact H).
  rewrite hyphenate_of_camel by exact H. reflexivity.
Qed.

End CaseProperties.

Lemma camelCase_without_separator_witness :
  @camelCase ascii_case (lit "fooBar") = Normal (lit "fooBar").
Proof.
  apply (@camelCase_without_separator ascii_case).
  repeat constructor.
Defined.

Lemma cssCase_without_uppercase_witness :
  @cssCase ascii_case (lit "margin") = Normal (lit "margin").
Proof.
  apply (@cssCase_without_uppercase ascii_case). repeat constructor.
Defined.

Lemma cssCase_ascii_is_lowercase_witness :
  exists r, @cssCase ascii_case (lit "WebkitTransform") = Normal r
    /\ Forall (fun c => is_upper c = false) r.
Proof.
  apply (@cssCase_ascii_is_lowercase ascii_case).
  let l := eval vm_compute in (lit "WebkitTransform") in
  change (lit "WebkitTransform") with l.
  repeat (constructor; [unfold is_ascii; lia|]). constructor.
Defined.

Lemma cssCase_of_camelCase_witness :
  (@camelCase ascii_case (lit "background-color") ≫= @cssCase ascii_case)
  = Normal (lit "background-color").
Proof. apply (@cssCase_of_camelCase ascii_case). reflexivity. Defined.

Lemma camelCase_of_cssCase_witness :
  (@cssCase ascii_case (lit "backgroundColor") ≫= @camelCase ascii_case)
  = Normal (lit "backgroundColor").
Proof.
  apply (@camelCase_of_cssCase ascii_case).
  repeat constructor.
Defined.

End Case.

(** ** The instance check [isCheerio] *)

Module Marker.

(** Values whose properties are all data properties, as a property read
    sees them.  An object is its own properties (first binding of a key
    wins) and its prototype.  The payload of a primitive plays no part in
    a property read, except for the own properties of a string.  Values
    with accessor properties and proxies are the subject of module
    [Accessor], whose [isCheerio] agrees with this one on the values
    here. *)
Inductive value :=
| VUndefined
| VNull
| VBoolean (b : bool)
| VNumber (n : Z)
| VString (s : list Z)
| VSymbol (description : string)
| VBigInt (n : Z)
| VObject (o : object)
with object :=
| Obj (own : list (string * value)) (proto : option object).

(** The prototypes a primitive is wrapped with for a property read. *)
Record realm := Realm {
  BooleanPrototype : object;
  NumberPrototype : object;
  StringPrototype : object;
  SymbolPrototype : object;
  BigIntPrototype : object
}.

Fixpoint own_lookup (k : string) (own : list (string * value)) : option value :=
  match own with
  | [] => None
  | (k', v) :: rest => if String.eqb k k' then Some v else own_lookup k rest
  end.

(** [[Get]] on an ordinary object: the own property, else the prototype
    chain, else [undefined]. *)
Fixpoint get_object (o : object) (k : string) : value :=
  match o with
  | Obj own proto =>
      match own_lookup k own with
      | Some v => v
      | None =>
          match proto with
          | Some p => get_object p k
          | None => VUndefined
          end
      end
  end.

(** A canonical array index: decimal digits without a leading zero. *)
Definition digit_of (a : ascii) : option nat :=
  let n := nat_of_ascii a in
  if ((48 <=? n) && (n <=? 57))%nat then Some (n - 48)%nat else None.

Fixpoint parse_digits (s : string) (acc : nat) : option nat :=
  match s with
  | EmptyString => Some acc
  | String a rest =>
      match digit_of a with
      | Some d => parse_digits rest (10 * acc + d)%nat
      | None => None
      end
  end.

Definition parse_index (k : string) : option nat :=
  match k with
  | EmptyString => None
  | String "0" EmptyString => Some 0%nat
  | String "0" _ => None
  | _ => parse_digits k 0
  end.

(** The own properties of a string value: [length] and its indices. *)
Definition string_own (s : list Z) (k : string) : option value :=
  if String.eqb k "length" then Some (VNumber (Z.of_nat (length s)))
  else
    match parse_index k with
    | Some i => (fun c => VString [c]) <$> s !! i
    | None => None
    end.

(** [v.k]: a read on [undefined] or [null] throws a [TypeError]; a
    primitive is read through its prototype. *)
Definition get_property (rl : realm) (v : value) (k : string) : completion value :=
  match v with
  | VUndefined | VNull => Throw TypeError
  | VBoolean _ => Normal (get_object (BooleanPrototype rl) k)
  | VNumber _ => Normal (get_object (NumberPrototype rl) k)
  | VString s =>
      Normal (match string_own s k with
              | Some w => w
              | None => get_object (StringPrototype rl) k
              end)
  | VSymbol _ => Normal (get_object (SymbolPrototype rl) k)
  | VBigInt _ => Normal (get_object (BigIntPrototype rl) k)
  | VObject o => Normal (get_object o k)
  end.

(** [w != null]: false exactly for [null] and [undefined]. *)
Definition not_nullish (w : value) : bool :=
  match w with
  | VUndefined | VNull => false
  | _ => true
  end.

(** [isCheerio(maybeCheerio)] *)
Definition isCheerio (rl : realm) (maybeCheerio : value) : completion bool :=
  w ← get_property rl maybeCheerio "cheerio";
  Normal (not_nullish w).

(** The words of the specification. *)

(** The object has property [k] with value [v], own or inherited; an own
    property hides an inherited one. *)
Inductive has_property : object -> string -> value -> Prop :=
| has_own own proto k v :
    own_lookup k own = Some v ->
    has_property (Obj own proto) k v
| has_inherited own p k v :
    own_lookup k own = None ->
    has_property p k v ->
    has_property (Obj own (Some p)) k v.

(** The value exposes property [k] with value [w]. *)
Definition exposes (rl : realm) (v : value) (k : string) (w : value) : Prop :=
  match v with
  | VUndefined | VNull => False
  | VBoolean _ => has_property (BooleanPrototype rl) k w
  | VNumber _ => has_property (NumberPrototype rl) k w
  | VString s =>
      string_own s k = Some w
      \/ (string_own s k = None /\ has_property (StringPrototype rl) k w)
  | VSymbol _ => has_property (SymbolPrototype rl) k w
  | VBigInt _ => has_property (BigIntPrototype rl) k w
  | VObject o => has_property o k w
  end.

(** The value exposes the [cheerio] marker with a non-nullish value. *)
Definition has_marker (rl : realm) (v : value) : Prop :=
  exists w, exposes rl v "cheerio" w /\ w <> VUndefined /\ w <> VNull.

Definition nullish (v : value) : Prop := v = VNull \/ v = VUndefined.

(** *** Reads and the property relation *)

Lemma has_property_get o k v : has_property o k v -> get_object o k = v.
Proof.
  induction 1 as [own proto k v H | own p k v H _ IH]; simpl; rewrite H.
  - reflexivity.
  - exact IH.
Qed.

Lemma has_property_functional o k v w :
  has_property o k v -> has_property o k w -> v = w.
Proof.
  intros Hv Hw. apply has_property_get in Hv, Hw. congruence.
Qed.

(** A read that does not give [undefined] found a property. *)
Fixpoint get_object_found (o : object) (k : string) {struct o} :
  get_object o k <> VUndefined -> has_property o k (get_object o k).
Proof.
  destruct o as [own proto]. simpl.
  destruct (own_lookup k own) as [v|] eqn:Hown.
  - intros _. apply has_own. exact Hown.
  - destruct proto as [p|].
    + intros Hne. apply has_inherited; [exact Hown|].
      apply get_object_found. exact Hne.
    + intros Hne. contradiction.
Qed.

Lemma not_nullish_true w : not_nullish w = true <-> w <> VUndefined /\ w <> VNull.
Proof. destruct w; simpl; split; try (intros [? ?]); try split; congruence. Qed.

Lemma object_marker o :
  not_nullish (get_object o "cheerio") = true
  <-> exists w, has_property o "cheerio" w /\ w <> VUndefined /\ w <> VNull.
Proof.
  rewrite not_nullish_true. split.
  - intros [Hu Hn]. exists (get_object o "cheerio").
    split; [apply get_object_found; exact Hu | split; assumption].
  - intros (w & Hp & Hu & Hn). rewrite (has_property_get _ _ _ Hp).
    split; assumption.
Qed.

Lemma string_own_cheerio s : string_own s "cheerio" = None.
Proof. reflexivity. Qed.

Lemma isCheerio_true_iff rl v : isCheerio rl v = Normal true <-> has_marker rl v.
Proof.
  unfold isCheerio, has_marker.
  destruct v; simpl;
    try (split; [discriminate | intros (w & [] & _)]);
    try (rewrite <- object_marker; split; [intros [= H]; exact H | intros H; f_equal; exact H]).
  rewrite string_own_cheerio. split.
  - intros [= H]. apply object_marker in H. destruct H as (w & Hp & Hw).
    exists w. split; [right; split; [reflexivity | exact Hp] | exact Hw].
  - intros (w & [Hw | [_ Hp]] & Hne); [discriminate|].
    f_equal. apply object_marker. exists w. split; assumption.
Qed.

Lemma isCheerio_total_on_values rl v :
  ~ nullish v -> exists b, isCheerio rl v = Normal b.
Proof.
  unfold nullish, isCheerio. intros Hn.
  destruct v; simpl; try (eexists; reflexivity); exfalso; apply Hn; auto.
Qed.

(** A realm whose primitive prototypes carry no properties. *)
Definition bare_realm : realm :=
  let empty := Obj [] None in Realm empty empty empty empty empty.


(** On values whose properties are all data properties, a fault only
    comes from a [null] or [undefined] input. *)
Lemma isCheerio_data_faults_only_on_nullish (rl : realm) (v : value) :
  (~ nullish v ->
     (exists b, isCheerio rl v = Normal b)
     /\ (~ has_marker rl v -> isCheerio rl v = Normal false))
  /\ (forall e, isCheerio rl v = Throw e -> nullish v).
Proof.
  split.
  - intros Hn. destruct (isCheerio_total_on_values rl v Hn) as [b Hb].
    split; [exists b; exact Hb|].
    intros Hno. destruct b; [|exact Hb].
    exfalso. apply Hno. apply isCheerio_true_iff. exact Hb.
  - intros e He. unfold nullish.
    destruct v; try discriminate He; auto.
Qed.

(** [isCheerio] on sample inputs: a wrapper with the marker as an inherited
    property, a plain object, an own [undefined] hiding an inherited
    marker, and a number. *)
Example isCheerio_inherited_marker :
  isCheerio bare_realm
    (VObject (Obj [("length", VNumber 0)]
                  (Some (Obj [("cheerio", VString (JsString.lit "[cheerio object]"))] None))))
  = Normal true.
Proof. reflexivity. Qed.

Example isCheerio_plain_object : isCheerio bare_realm (VObject (Obj [] None)) = Normal false.
Proof. reflexivity. Qed.

Example isCheerio_hidden_marker :
  isCheerio bare_realm
    (VObject (Obj [("cheerio", VUndefined)]
                  (Some (Obj [("cheerio", VBoolean true)] None))))
  = Normal false.
Proof. reflexivity. Qed.

Example isCheerio_number : isCheerio bare_realm (VNumber 5) = Normal false.
Proof. reflexivity. Qed.

End Marker.

(** ** [isCheerio] on values with accessors and proxies *)

Module Accessor.

(** Values as a property read sees them, in general.  A property of an
    ordinary object is a data property or an accessor; an accessor stands
    by the outcome of its getter on this read, a value or a thrown error
    (an accessor without a getter reads as [undefined]).  A proxy answers
    every read through its [get] trap. *)
Inductive value :=
| VUndefined
| VNull
| VBoolean (b : bool)
| VNumber (n : Z)
| VString (s : list Z)
| VSymbol (description : string)
| VBigInt (n : Z)
| VObject (o : object)
with object :=
| Obj (own : list (string * property)) (proto : option object)
| Proxy (get_trap : string -> completion value)
with property :=
| Data (v : value)
| Getter (result : completion value).

Record realm := Realm {
  BooleanPrototype : object;
  NumberPrototype : object;
  StringPrototype : object;
  SymbolPrototype : object;
  BigIntPrototype : object
}.

Fixpoint own_lookup (k : string) (own : list (string * property)) : option property :=
  match own with
  | [] => None
  | (k', p) :: rest => if String.eqb k k' then Some p else own_lookup k rest
  end.

(** [[Get]]: the own property (its value, or what its getter does), else
    the prototype chain, else [undefined]; on a proxy, the trap. *)
Fixpoint get_object (o : object) (k : string) : completion value :=
  match o with
  | Obj own proto =>
      match own_lookup k own with
      | Some (Data v) => Normal v
      | Some (Getter r) => r
      | None =>
          match proto with
          | Some p => get_object p k
          | None => Normal VUndefined
          end
      end
  | Proxy get_trap => get_trap k
  end.

(** The own properties of a string value: [length] and its indices. *)
Definition string_own (s : list Z) (k : string) : option value :=
  if String.eqb k "length" then Some (VNumber (Z.of_nat (length s)))
  else
    match Marker.parse_index k with
    | Some i => (fun c => VString [c]) <$> s !! i
    | None => None
    end.

(** [v.k] *)
Definition get_property (rl : realm) (v : value) (k : string) : completion value :=
  match v with
  | VUndefined | VNull => Throw TypeError
  | VBoolean _ => get_object (BooleanPrototype rl) k
  | VNumber _ => get_object (NumberPrototype rl) k
  | VString s =>
      match string_own s k with
      | Some w => Normal w
      | None => get_object (StringPrototype rl) k
      end
  | VSymbol _ => get_object (SymbolPrototype rl) k
  | VBigInt _ => get_object (BigIntPrototype rl) k
  | VObject o => get_object o k
  end.

Definition not_nullish (w : value) : bool :=
  match w with
  | VUndefined | VNull => false
  | _ => true
  end.

(** [isCheerio(maybeCheerio)] *)
Definition isCheerio (rl : realm) (maybeCheerio : value) : completion bool :=
  w ← get_property rl maybeCheerio "cheerio";
  Normal (not_nullish w).

(** What a read can meet. *)

(** The read of [k] on the object finds a data property with value [v]. *)
Inductive finds_data : object -> string -> value -> Prop :=
| finds_own own proto k v :
    own_lookup k own = Some (Data v) ->
    finds_data (Obj own proto) k v
| finds_inherited own p k v :
    own_lookup k own = None ->
    finds_data p k v ->
    finds_data (Obj own (Some p)) k v.

(** The read of [k] on the object runs a getter or a proxy trap, with
    outcome [r]. *)
Inductive runs_accessor : object -> string -> completion value -> Prop :=
| runs_getter own proto k r :
    own_lookup k own = Some (Getter r) ->
    runs_accessor (Obj own proto) k r
| runs_trap get_trap k :
    runs_accessor (Proxy get_trap) k (get_trap k)
| runs_inherited own p k r :
    own_lookup k own = None ->
    runs_accessor p k r ->
    runs_accessor (Obj own (Some p)) k r.

(** The object a read on the value goes to, when there is one: the value
    itself, or the prototype of a primitive whose own properties do not
    answer. *)
Definition read_target (rl : realm) (v : value) (k : string) : option object :=
  match v with
  | VUndefined | VNull => None
  | VBoolean _ => Some (BooleanPrototype rl)
  | VNumber _ => Some (NumberPrototype rl)
  | VString s =>
      match string_own s k with
      | Some _ => None
      | None => Some (StringPrototype rl)
      end
  | VSymbol _ => Some (SymbolPrototype rl)
  | VBigInt _ => Some (BigIntPrototype rl)
  | VObject o => Some o
  end.


(** The value exposes property [k] with value [w]: as a data property, or
    through a getter or trap that returns [w]. *)
Definition exposes (rl : realm) (v : value) (k : string) (w : value) : Prop :=
  (exists s, v = VString s /\ string_own s k = Some w)
  \/ exists o, read_target rl v k = Some o
       /\ (finds_data o k w \/ runs_accessor o k (Normal w)).

Definition has_marker (rl : realm) (v : value) : Prop :=
  exists w, exposes rl v "cheerio" w /\ w <> VUndefined /\ w <> VNull.

Definition nullish (v : value) : Prop := v = VNull \/ v = VUndefined.

(** *** Reads against the two relations *)








(** A realm whose primitive prototypes carry no properties. *)
Definition bare_realm : realm :=
  let empty := Obj [] None in Realm empty empty empty empty empty.


Definition throwing_proxy : value :=
  VObject (Proxy (fun _ => Throw RangeError)).

(** A wrapper whose marker is a getter on its prototype. *)
Definition getter_marker : value :=
  VObject (Obj [] (Some (Obj [("cheerio", Getter (Normal (VBoolean true)))] None))).

Example isCheerio_getter_marker : isCheerio bare_realm getter_marker = Normal true.
Proof. reflexivity. Qed.

Example isCheerio_throwing_proxy : isCheerio bare_realm throwing_proxy = Throw RangeError.
Proof. reflexivity. Qed.



(** *** The values of [Marker] among these *)

(** A value whose properties are all data properties, as a value here. *)
Fixpoint embed (v : Marker.value) : value :=
  match v with
  | Marker.VUndefined => VUndefined
  | Marker.VNull => VNull
  | Marker.VBoolean b => VBoolean b
  | Marker.VNumber n => VNumber n
  | Marker.VString s => VString s
  | Marker.VSymbol d => VSymbol d
  | Marker.VBigInt n => VBigInt n
  | Marker.VObject o => VObject (embed_object o)
  end
with embed_object (o : Marker.object) : object :=
  match o with
  | Marker.Obj own proto =>
      Obj (List.map (fun kv => (fst kv, Data (embed (snd kv)))) own)
          (match proto with
           | Some p => Some (embed_object p)
           | None => None
           end)
  end.

Definition embed_realm (rl : Marker.realm) : realm :=
  Realm (embed_object (Marker.BooleanPrototype rl))
        (embed_object (Marker.NumberPrototype rl))
        (embed_object (Marker.StringPrototype rl))
        (embed_object (Marker.SymbolPrototype rl))
        (embed_object (Marker.BigIntPrototype rl)).

Lemma own_lookup_embed k own :
  own_lookup k (List.map (fun kv => (fst kv, Data (embed (snd kv)))) own)
  = (fun w => Data (embed w)) <$> Marker.own_lookup k own.
Proof.
  induction own as [|[k' w] own IH]; [reflexivity|].
  simpl. destruct (String.eqb k k'); [reflexivity | exact IH].
Qed.

Fixpoint get_object_embed (o : Marker.object) (k : string) {struct o} :
  get_object (embed_object o) k = Normal (embed (Marker.get_object o k)).
Proof.
  destruct o as [own proto]. simpl. rewrite own_lookup_embed.
  destruct (Marker.own_lookup k own) as [w|]; simpl; [reflexivity|].
  destruct proto as [p|]; [apply get_object_embed | reflexivity].
Qed.

Lemma not_nullish_embed w : not_nullish (embed w) = Marker.not_nullish w.
Proof. destruct w; reflexivity. Qed.

(** On values whose properties are all data properties, the two models of
    [isCheerio] agree. *)
Lemma isCheerio_embed (rl : Marker.realm) (v : Marker.value) :
  isCheerio (embed_realm rl) (embed v) = Marker.isCheerio rl v.
Proof.
  unfold isCheerio, Marker.isCheerio.
  destruct v; simpl; try reflexivity;
    try (rewrite get_object_embed; simpl; rewrite not_nullish_embed; reflexivity).
Qed.

End Accessor.

(** ** Batch iteration [domEach] *)

Module Iter.

Section DomEach.

(** The program state, references to array-like objects, and the values
    an indexed read gives ([undefined] included). *)
Variables (World Arr Elem : Type).

(** [array.length] and [array[i]] in a state. *)
Variable length_of : World -> Arr -> Z.
Variable element_at : World -> Arr -> Z -> Elem.

(** What [domEach] does that an observer can see: it reads the length of
    an array-like object, and it calls [fn]. *)
Inductive event :=
| ReadLength (array : Arr) (len : Z)
| Call (elem : Elem) (index : Z).

(** The callback: it gets the element and the index, returns nothing, and
    may change the state, the iterated object included. *)
Definition callback := Elem -> Z -> World -> World.

(** [for (let i = 0; i < len; i++) fn(array[i], i);] from [i] on. *)
Equations? for_loop (array : Arr) (fn : callback) (len i : Z) (w : World)
    : World * list event by wf (Z.to_nat (len - i)) lt :=
  for_loop array fn len i w with Z_lt_dec i len := {
    | left _ =>
        let elem := element_at w array i in
        let '(w', calls) := for_loop array fn len (i + 1) (fn elem i w) in
        (w', Call elem i :: calls)
    | right _ => (w, [])
  }.
Proof. lia. Qed.

(** [domEach(array, fn)]: the returned reference, the final state and the
    events in order. *)
Definition domEach (array : Arr) (fn : callback) (w : World)
    : Arr * World * list event :=
  let len := length_of w array in
  let '(w', calls) := for_loop array fn len 0 w in
  (array, w', ReadLength array len :: calls).

(** The words of the specification: visit the given indices in order,
    handing [fn] the element stored at the index when its turn comes. *)
Fixpoint visit (array : Arr) (fn : callback) (indices : list Z) (w : World)
    : World * list event :=
  match indices with
  | [] => (w, [])
  | i :: rest =>
      let elem := element_at w array i in
      let '(w', calls) := visit array fn rest (fn elem i w) in
      (w', Call elem i :: calls)
  end.

Definition is_call (e : event) : Prop :=
  match e with Call _ _ => True | ReadLength _ _ => False end.

Definition call_index (e : event) : option Z :=
  match e with Call _ i => Some i | ReadLength _ _ => None end.

(** The indices [i, i+1, ..., i+n-1]. *)
Definition indices_from (i : Z) (n : nat) : list Z :=
  (fun k => i + Z.of_nat k) <$> seq 0 n.

Lemma indices_from_S i n : indices_from i (S n) = i :: indices_from (i + 1) n.
Proof.
  unfold indices_from. simpl. f_equal; [f_equal; lia|].
  rewrite <- seq_shift, <- list_fmap_compose.
  apply list_fmap_ext. intros _ k _. simpl. lia.
Qed.

Lemma indices_from_length i n : length (indices_from i n) = n.
Proof. unfold indices_from. rewrite length_fmap. apply length_seq. Qed.

(** The loop is the visit of the indices from [i] up to [len - 1]. *)
Lemma for_loop_visit array fn len n : forall i w,
  Z.to_nat (len - i) = n ->
  for_loop array fn len i w = visit array fn (indices_from i n) w.
Proof.
  induction n as [|n IH]; intros i w Hn; simp for_loop.
  - destruct (Z_lt_dec i len) as [Hlt|Hge]; [lia|]. reflexivity.
  - destruct (Z_lt_dec i len) as [Hlt|Hge]; [|lia].
    rewrite indices_from_S. cbn.
    rewrite (IH (i + 1)) by lia. reflexivity.
Qed.

(** A visit calls [fn] once per index, in the order given. *)
Lemma visit_calls array fn indices : forall w,
  Forall is_call (visit array fn indices w).2
  /\ call_index <$> (visit array fn indices w).2 = Some <$> indices.
Proof.
  induction indices as [|i rest IH]; intros w; simpl.
  - split; [constructor | reflexivity].
  - destruct (IH (fn (element_at w array i) i w)) as [Hc Hi].
    destruct (visit array fn rest (fn (element_at w array i) i w)) as [w' calls].
    simpl in *. split; [constructor; [exact I | exact Hc]|].
    f_equal. exact Hi.
Qed.

Lemma indices_from_zero n : indices_from 0 n = Z.of_nat <$> seq 0 n.
Proof. unfold indices_from. apply list_fmap_ext. intros _ k _. lia. Qed.

(** C6. For every indexable sequence of length [n] and every callback,
    [domEach] reads the length once, at entry; it then calls the callback
    exactly [n] times, with the indices [0 .. n-1] in ascending order, each
    time passing the element stored at the index at that moment; and it
    returns the very reference it was given.  The indices are fixed by the
    length read at entry, so what the callback appends is not visited. *)
Theorem domEach_snapshot_iteration (array : Arr) (fn : callback) (w : World) :
  let n := Z.to_nat (length_of w array) in
  exists w' calls,
    domEach array fn w = (array, w', ReadLength array (length_of w array) :: calls)
    /\ visit array fn (Z.of_nat <$> seq 0 n) w = (w', calls)
    /\ Forall is_call calls
    /\ length calls = n
    /\ call_index <$> calls = (fun k => Some (Z.of_nat k)) <$> seq 0 n.
Proof.
  intros n. unfold domEach.
  rewrite (for_loop_visit array fn (length_of w array) n 0 w) by (subst n; lia).
  rewrite indices_from_zero.
  destruct (visit_calls array fn (Z.of_nat <$> seq 0 n) w) as [Hc Hi].
  destruct (visit array fn (Z.of_nat <$> seq 0 n) w) as [w' calls] eqn:Hv.
  simpl in Hc, Hi. exists w', calls.
  split; [reflexivity|]. split; [reflexivity|]. split; [exact Hc|].
  split.
  - apply (f_equal length) in Hi. rewrite !length_fmap, length_seq in Hi.
    exact Hi.
  - rewrite Hi, <- list_fmap_compose. reflexivity.
Qed.

Lemma visit_stable array fn (w0 : World) indices : forall w,
  (forall v i w' j, element_at (fn v i w') array j = element_at w' array j) ->
  (forall j, element_at w array j = element_at w0 array j) ->
  (visit array fn indices w).2
  = (fun i => Call (element_at w0 array i) i) <$> indices.
Proof.
  induction indices as [|i rest IH]; intros w Hfn Hw; [reflexivity|].
  cbn [visit].
  specialize (IH (fn (element_at w array i) i w) Hfn).
  destruct (visit array fn rest (fn (element_at w array i) i w)) as [w' calls].
  cbn [snd fmap list_fmap] in *. rewrite Hw. f_equal. apply IH.
  intros j. rewrite Hfn. apply Hw.
Qed.

(** X10. When the callback leaves the elements of the sequence as they are,
    the elements it is handed are the ones the sequence held at entry, one
    call per index. *)
Theorem domEach_over_stable_sequence (array : Arr) (fn : callback) (w : World) :
  (forall v i w' j, element_at (fn v i w') array j = element_at w' array j) ->
  (domEach array fn w).2
  = ReadLength array (length_of w array)
    :: ((fun k => Call (element_at w array (Z.of_nat k)) (Z.of_nat k))
        <$> seq 0 (Z.to_nat (length_of w array))).
Proof.
  intros Hfn. unfold domEach.
  rewrite (for_loop_visit array fn (length_of w array)
             (Z.to_nat (length_of w array)) 0 w) by lia.
  rewrite indices_from_zero.
  pose proof (visit_stable array fn w
                (Z.of_nat <$> seq 0 (Z.to_nat (length_of w array))) w Hfn
                (fun j => eq_refl)) as Hv.
  destruct (visit array fn (Z.of_nat <$> seq 0 (Z.to_nat (length_of w array))) w)
    as [w' calls].
  cbn [snd] in *. rewrite Hv, <- list_fmap_compose. reflexivity.
Qed.

End DomEach.

Arguments ReadLength {Arr Elem} array len.
Arguments Call {Arr Elem} elem index.
Arguments domEach {World Arr Elem} length_of element_at array fn w.
Arguments visit {World Arr Elem} element_at array fn indices w.

(** A state that is one JavaScript array of numbers, [None] standing for
    [undefined]. *)
Definition array_length (w : list Z) (_ : unit) : Z := Z.of_nat (length w).

Definition array_get (w : list Z) (_ : unit) (i : Z) : option Z :=
  if i <? 0 then None else w !! Z.to_nat i.

(** [(elem, i) => { array.push(elem * 2); }] *)
Definition push_double : callback (list Z) (option Z) :=
  fun elem _ w => w ++ [2 * default 0 elem].

(** [(elem, i) => { array[i + 1] = elem + 1; }] on indices in range. *)
Definition bump_next : callback (list Z) (option Z) :=
  fun elem i w => <[Z.to_nat (i + 1) := default 0 elem + 1]> w.

(** The callback grows the array; only the two elements present at entry
    are visited. *)
Example domEach_ignores_appended :
  domEach array_length array_get tt push_double [1; 2]
  = (tt, [1; 2; 2; 4], [ReadLength tt 2; Call (Some 1) 0; Call (Some 2) 1]).
Proof. reflexivity. Qed.

(** The callback overwrites the next slot; the next call sees the new
    element, not the one stored at entry. *)
Example domEach_reads_current_element :
  domEach array_length array_get tt bump_next [5; 0; 0]
  = (tt, [5; 6; 7], [ReadLength tt 3; Call (Some 5) 0; Call (Some 6) 1; Call (Some 7) 2]).
Proof. reflexivity. Qed.

(** A state that pairs an array with an accumulator; the callback adds the
    element to the accumulator and leaves the array alone. *)
Definition sum_into : callback (list Z * Z) (option Z) :=
  fun elem _ w => (w.1, w.2 + default 0 elem).

Lemma domEach_over_stable_sequence_witness :
  (domEach (fun w => array_length w.1) (fun w => array_get w.1) tt sum_into
     ([3; 4], 0)).2
  = [ReadLength tt 2; Call (Some 3) 0; Call (Some 4) 1].
Proof.
  apply (domEach_over_stable_sequence (list Z * Z) unit (option Z)
           (fun w => array_length w.1) (fun w => array_get w.1) tt sum_into
           ([3; 4], 0)).
  intros v i w' j. reflexivity.
Defined.

End Iter.

(** ** Deep cloning [cloneDom] *)

Module Dom.

(** *** The object store *)

Abbreviation loc := positive.

Inductive val :=
| VUndefined
| VNull
| VBoolean (b : bool)
| VNumber (n : Z)
| VString (s : string)
| VRef (l : loc).

(** An object: the properties it exposes, own or inherited, under a name
    ([length], [parent], [children], ...) and under an array index.  A
    name never spells an array index. *)
Record object := Object {
  named : gmap string val;
  indexed : gmap nat val
}.

Abbreviation heap := (gmap loc object).

Definition empty_object : object := Object ∅ ∅.

(** The object behind a reference.  References do not dangle; a location
    outside the store reads as an object without properties. *)
Definition obj_at (h : heap) (l : loc) : object := default empty_object (h !! l).

(** [o.k], [k in o] and [o.k = v] for a name [k]; [o[i] = v] for an index. *)
Definition get_named (h : heap) (l : loc) (k : string) : val :=
  default VUndefined (named (obj_at h l) !! k).

Definition has_named (h : heap) (l : loc) (k : string) : bool :=
  bool_decide (is_Some (named (obj_at h l) !! k)).

Definition set_named (h : heap) (l : loc) (k : string) (v : val) : heap :=
  <[l := Object (<[k := v]> (named (obj_at h l))) (indexed (obj_at h l))]> h.

Definition set_index (h : heap) (l : loc) (i : nat) (v : val) : heap :=
  <[l := Object (named (obj_at h l)) (<[i := v]> (indexed (obj_at h l)))]> h.

(** A new object gets a location the store does not use. *)
Definition alloc (h : heap) (o : object) : loc * heap :=
  let l := fresh (dom h) in (l, <[l := o]> h).

(** The store and the log of the arguments [cloneNode] was called with. *)
Record state := State {
  store : heap;
  cloned : list val
}.

(** [r] is stored in a property of [o]. *)
Definition refs_of (o : object) (r : loc) : Prop :=
  (exists k, named o !! k = Some (VRef r)) \/ (exists i, indexed o !! i = Some (VRef r)).

(** Every stored reference points into the store. *)
Definition closed (h : heap) : Prop :=
  forall l o r, h !! l = Some o -> refs_of o r -> r ∈ dom h.

(** [h'] keeps every object of [h] as it is, and the objects it adds
    refer to added objects only. *)
Definition separated (h h' : heap) : Prop :=
  h ⊆ h'
  /\ forall l o r, l ∉ dom h -> h' !! l = Some o -> refs_of o r ->
       r ∈ dom h' /\ r ∉ dom h.

(** Following stored references from one object to another. *)
Inductive reach (h : heap) : loc -> loc -> Prop :=
| reach_here l : reach h l l
| reach_step l o r l' :
    h !! l = Some o -> refs_of o r -> reach h r l' -> reach h l l'.

(** *** What the source takes from the runtime and from domhandler *)

(** Modelled from the spec: [cloneNode(node, true)], the recursive copy of
    domhandler, which is not part of this repository.  The copy of a
    well-formed node succeeds, returns a new object, leaves every object
    that existed as it was, and shares no mutable state with it: what it
    creates refers only to what it creates.  [ToLength] is the runtime's
    conversion of a [length] value to an integer of [0, 2^53 - 1]; a
    number is clamped to that range. *)
Class Environment := {
  ToLength : val -> Z;
  ToLength_range : forall v, 0 <= ToLength v <= 2 ^ 53 - 1;
  ToLength_number : forall n, ToLength (VNumber n) = Z.max 0 (Z.min n (2 ^ 53 - 1));
  cloneNode : val -> heap -> completion (val * heap);
  well_formed : heap -> val -> Prop;
  well_formed_mono : forall h h' v, h ⊆ h' -> well_formed h v -> well_formed h' v;
  cloneNode_spec : forall h v, closed h -> well_formed h v ->
    exists c h', cloneNode v h = Normal (VRef c, h')
      /\ (c ∉ dom h) /\ (c ∈ dom h') /\ separated h h'
}.

Section CloneDom.

Context {env : Environment}.

(** [(el) => cloneNode(el, true)], with the call logged. *)
Definition clone_callback (el : val) (st : state) : completion (val * state) :=
  '(c, h') ← cloneNode el (store st);
  Normal (c, State h' (cloned st ++ [el])).

(** The loop of [Array.prototype.map]: for [k] below the length read at
    entry, an index that is present is mapped and the result stored in
    the new array [A]; an absent one is skipped.  [n] counts the indices
    that are left. *)
Fixpoint map_loop (O A : loc) (k n : nat) (st : state) : completion state :=
  match n with
  | O => Normal st
  | S n' =>
      match indexed (obj_at (store st) O) !! k with
      | Some kValue =>
          '(mapped, st') ← clone_callback kValue st;
          map_loop O A (S k) n' (State (set_index (store st') A k mapped) (cloned st'))
      | None => map_loop O A (S k) n' st
      end
  end.

(** [Array.prototype.map.call(dom, (el) => cloneNode(el, true))]: the new
    array is created first, with the length of [dom]; a length above
    [2^32 - 1] is a [RangeError]. *)
Definition array_map (O : loc) (st : state) : completion (loc * state) :=
  let len := ToLength (get_named (store st) O "length") in
  if 2 ^ 32 - 1 <? len then Throw RangeError
  else
    let '(A, h1) := alloc (store st) (Object {["length" := VNumber len]} ∅) in
    st' ← map_loop O A 0 (Z.to_nat len) (State h1 (cloned st));
    Normal (A, st').

(** [[cloneNode(dom, true)]] *)
Definition array_of_clone (dom : loc) (st : state) : completion (loc * state) :=
  '(c, st') ← clone_callback (VRef dom) st;
  let '(A, h1) := alloc (store st') (Object {["length" := VNumber 1]} {[0%nat := c]}) in
  Normal (A, State h1 (cloned st')).

(** Modelled from the spec: [new Document(children)] of domhandler, a
    document constructed from an ordered list of child nodes.  The new
    node has type [root], no parent and no siblings, and its [children]
    is the list it was given. *)
Definition newDocument (children : loc) (h : heap) : loc * heap :=
  alloc h (Object (<["type" := VString "root"]>
                   (<["parent" := VNull]>
                   (<["prev" := VNull]>
                   (<["next" := VNull]>
                   (<["startIndex" := VNull]>
                   (<["endIndex" := VNull]>
                   {["children" := VRef children]})))))) ∅).

(** [node.parent = root] in strict code: an assignment to a property of
    anything but an object is a [TypeError]. *)
Definition assign_parent (node : val) (root : loc) (h : heap) : completion heap :=
  match node with
  | VRef c => Normal (set_named h c "parent" (VRef root))
  | _ => Throw TypeError
  end.

(** The loop of [clone.forEach((node) => { node.parent = root; })]. *)
Fixpoint forEach_loop (A root : loc) (k n : nat) (h : heap) : completion heap :=
  match n with
  | O => Normal h
  | S n' =>
      match indexed (obj_at h A) !! k with
      | Some node =>
          h' ← assign_parent node root h;
          forEach_loop A root (S k) n' h'
      | None => forEach_loop A root (S k) n' h
      end
  end.

Definition forEach_set_parent (A root : loc) (h : heap) : completion heap :=
  let len := ToLength (get_named h A "length") in
  forEach_loop A root 0 (Z.to_nat len) h.

(** [cloneDom(dom)] *)
Definition cloneDom (dom : loc) (st : state) : completion (loc * state) :=
  '(clone, st1) ←
    (if has_named (store st) dom "length"
     then array_map dom st
     else array_of_clone dom st);
  let '(root, h2) := newDocument clone (store st1) in
  h3 ← forEach_set_parent clone root h2;
  Normal (clone, State h3 (cloned st1)).

End CloneDom.

(** *** The store: allocation, separation, reachability *)

Lemma fresh_unused (h : heap) : h !! fresh (dom h) = None.
Proof. apply not_elem_of_dom, is_fresh. Qed.

Lemma obj_at_insert (h : heap) l l' o :
  obj_at (<[l := o]> h) l' = if decide (l = l') then o else obj_at h l'.
Proof.
  unfold obj_at. rewrite lookup_insert.
  destruct (decide (l = l')); reflexivity.
Qed.

Lemma obj_at_lookup (h : heap) l o : h !! l = Some o -> obj_at h l = o.
Proof. unfold obj_at. intros ->. reflexivity. Qed.

Lemma obj_at_subseteq (h h' : heap) l :
  h ⊆ h' -> l ∈ dom h -> obj_at h' l = obj_at h l.
Proof.
  intros Hsub Hl. apply elem_of_dom in Hl. destruct Hl as [o Ho].
  rewrite (obj_at_lookup h l o Ho).
  apply obj_at_lookup. exact (lookup_weaken _ _ _ _ Ho Hsub).
Qed.

Lemma separated_refl (h : heap) : separated h h.
Proof.
  split; [reflexivity|]. intros l o r Hl Ho _.
  exfalso. apply Hl. apply elem_of_dom. eauto.
Qed.

Lemma separated_dom (h h' : heap) : separated h h' -> dom h ⊆ dom h'.
Proof. intros [Hsub _]. apply subseteq_dom. exact Hsub. Qed.

Lemma separated_trans (h0 h h' : heap) :
  separated h0 h -> separated h h' -> separated h0 h'.
Proof.
  intros [S1 N1] [S2 N2]. split; [etrans; eassumption|].
  intros l o r Hl Ho Hr.
  destruct (h !! l) as [o1|] eqn:Hh.
  - assert (o1 = o) as ->.
    { pose proof (lookup_weaken _ _ _ _ Hh S2) as E. congruence. }
    destruct (N1 l o r Hl Hh Hr) as [Hin Hout]. split; [|exact Hout].
    apply (subseteq_dom _ _ S2). exact Hin.
  - apply not_elem_of_dom in Hh.
    destruct (N2 l o r Hh Ho Hr) as [Hin Hout]. split; [exact Hin|].
    intros Hr0. apply Hout. apply (subseteq_dom _ _ S1). exact Hr0.
Qed.

(** Writing an object at a location the old store does not use keeps the
    separation, when the object refers to added objects only. *)
Lemma separated_insert (h0 h : heap) l o :
  separated h0 h -> l ∉ dom h0 ->
  (forall r, refs_of o r -> r ∈ dom (<[l := o]> h) /\ r ∉ dom h0) ->
  separated h0 (<[l := o]> h).
Proof.
  intros [S N] Hl Ho. split.
  - apply map_subseteq_spec. intros l' o' Hl'.
    rewrite lookup_insert_ne; [exact (lookup_weaken _ _ _ _ Hl' S)|].
    intros <-. apply Hl. apply elem_of_dom. eauto.
  - intros l' o' r Hl' Ho' Hr. rewrite lookup_insert in Ho'.
    destruct (decide (l = l')) as [<-|Hne].
    + injection Ho' as <-. apply Ho. exact Hr.
    + destruct (N l' o' r Hl' Ho' Hr) as [Hin Hout]. split; [|exact Hout].
      rewrite dom_insert_L. apply elem_of_union. right. exact Hin.
Qed.

Lemma closed_separated (h0 h : heap) : closed h0 -> separated h0 h -> closed h.
Proof.
  intros C [S N] l o r Ho Hr.
  destruct (decide (l ∈ dom h0)) as [Hl|Hl].
  - apply elem_of_dom in Hl. destruct Hl as [o0 Ho0].
    pose proof (lookup_weaken _ _ _ _ Ho0 S) as E.
    assert (o0 = o) as -> by congruence.
    apply (subseteq_dom _ _ S). exact (C l o r Ho0 Hr).
  - exact (proj1 (N l o r Hl Ho Hr)).
Qed.

(** What an added object reaches is added; what an old object reaches is
    old. *)
Lemma reach_added (h0 h : heap) l l' :
  separated h0 h -> reach h l l' -> l ∉ dom h0 -> l' ∉ dom h0.
Proof.
  intros [S N]. induction 1 as [l | l o r l' Ho Hr _ IH]; intros Hl.
  - exact Hl.
  - apply IH. exact (proj2 (N l o r Hl Ho Hr)).
Qed.

Lemma reach_old (h0 h : heap) l l' :
  closed h0 -> separated h0 h -> reach h l l' -> l ∈ dom h0 -> l' ∈ dom h0.
Proof.
  intros C [S N]. induction 1 as [l | l o r l' Ho Hr _ IH]; intros Hl.
  - exact Hl.
  - apply IH. apply elem_of_dom in Hl. destruct Hl as [o0 Ho0].
    pose proof (lookup_weaken _ _ _ _ Ho0 S) as E.
    assert (o0 = o) as -> by congruence.
    exact (C l o r Ho0 Hr).
Qed.

Lemma obj_at_set_index (h : heap) l i v l' :
  obj_at (set_index h l i v) l'
  = if decide (l = l')
    then Object (named (obj_at h l)) (<[i := v]> (indexed (obj_at h l)))
    else obj_at h l'.
Proof. unfold set_index. apply obj_at_insert. Qed.

Lemma obj_at_set_named (h : heap) l k v l' :
  obj_at (set_named h l k v) l'
  = if decide (l = l')
    then Object (<[k := v]> (named (obj_at h l))) (indexed (obj_at h l))
    else obj_at h l'.
Proof. unfold set_named. apply obj_at_insert. Qed.

Lemma refs_of_set_index o i v r :
  refs_of (Object (named o) (<[i := v]> (indexed o))) r ->
  refs_of o r \/ v = VRef r.
Proof.
  intros [[k Hk] | [j Hj]]; simpl in *.
  - left. left. eauto.
  - rewrite lookup_insert in Hj. destruct (decide (i = j)).
    + right. congruence.
    + left. right. eauto.
Qed.

Lemma refs_of_set_named o k v r :
  refs_of (Object (<[k := v]> (named o)) (indexed o)) r ->
  refs_of o r \/ v = VRef r.
Proof.
  intros [[k' Hk] | [j Hj]]; simpl in *.
  - rewrite lookup_insert in Hk. destruct (decide (k = k')).
    + right. congruence.
    + left. left. eauto.
  - left. right. eauto.
Qed.

(** Updating an added object with a reference to an added object keeps
    the separation. *)
Lemma separated_update (h0 h : heap) l o' :
  separated h0 h -> l ∈ dom h -> l ∉ dom h0 ->
  (forall r, refs_of o' r ->
     refs_of (obj_at h l) r \/ (r ∈ dom h /\ r ∉ dom h0)) ->
  separated h0 (<[l := o']> h).
Proof.
  intros Hs Hl Hl0 Hrefs. apply separated_insert; [exact Hs | exact Hl0 |].
  intros r Hr. rewrite dom_insert_L.
  destruct (Hrefs r Hr) as [Hold | [Hin Hout]].
  - apply elem_of_dom in Hl. destruct Hl as [o Ho].
    rewrite (obj_at_lookup h l o Ho) in Hold.
    destruct (proj2 Hs l o r Hl0 Ho Hold) as [Hin Hout].
    split; [apply elem_of_union; right; exact Hin | exact Hout].
  - split; [apply elem_of_union; right; exact Hin | exact Hout].
Qed.

Section CloneDomProofs.

Context {env : Environment}.

(** The words of the specification: the length of the returned list and
    the node cloned into each of its slots, read off the input. *)
Definition out_length (h : heap) (dom : loc) : Z :=
  if has_named h dom "length" then ToLength (get_named h dom "length") else 1.

Definition source_at (h : heap) (dom : loc) (j : nat) : option val :=
  if has_named h dom "length" then
    if decide (Z.of_nat j < ToLength (get_named h dom "length"))
    then indexed (obj_at h dom) !! j
    else None
  else if decide (j = 0%nat) then Some (VRef dom) else None.

Definition sources (h : heap) (dom : loc) : list val :=
  omap (source_at h dom) (seq 0 (Z.to_nat (out_length h dom))).

(** An input whose nodes are well formed, in a store without dangling
    references. *)
Definition input_ok (h : heap) (dom : loc) : Prop :=
  closed h /\ is_Some (h !! dom) /\ out_length h dom <= 2 ^ 32 - 1
  /\ forall j v, source_at h dom j = Some v -> well_formed h v.

(** [c] was returned by a call of [cloneNode] on [v]. *)
Definition clone_of (v : val) (c : loc) : Prop :=
  exists hk hk', cloneNode v hk = Normal (VRef c, hk').

Lemma clone_callback_spec h0 v st :
  closed h0 -> separated h0 (store st) -> well_formed h0 v ->
  exists c h1,
    clone_callback v st = Normal (VRef c, State h1 (cloned st ++ [v]))
    /\ (c ∉ dom (store st)) /\ (c ∈ dom h1)
    /\ separated (store st) h1 /\ clone_of v c.
Proof.
  intros C Hs Hwf.
  destruct (cloneNode_spec (store st) v) as (c & h1 & E & Hc & Hc1 & Hs1).
  - exact (closed_separated h0 _ C Hs).
  - exact (well_formed_mono h0 _ v (proj1 Hs) Hwf).
  - exists c, h1. unfold clone_callback. rewrite E. simpl.
    split; [reflexivity|]. split; [exact Hc|]. split; [exact Hc1|].
    split; [exact Hs1|]. exists (store st), h1. exact E.
Qed.

Lemma omap_seq_S {A : Type} (f : nat -> option A) k n :
  omap f (seq k (S n))
  = match f k with
    | Some v => v :: omap f (seq (S k) n)
    | None => omap f (seq (S k) n)
    end.
Proof. reflexivity. Qed.

Lemma omap_ext_seq {A : Type} (f g : nat -> option A) k n :
  (forall j, (k <= j < k + n)%nat -> f j = g j) ->
  omap f (seq k n) = omap g (seq k n).
Proof.
  revert k. induction n as [|n IH]; intros k H; [reflexivity|].
  rewrite !omap_seq_S, (H k) by lia. rewrite (IH (S k)); [reflexivity|].
  intros j Hj. apply H. lia.
Qed.

(** The slots [k .. k+n-1] of the new array after the loop of [map]. *)
Definition slots_mapped (h0 : heap) (O A : loc) (k n : nat) (h h' : heap) : Prop :=
  forall j, (k <= j < k + n)%nat ->
    match indexed (obj_at h0 O) !! j with
    | None => indexed (obj_at h' A) !! j = indexed (obj_at h A) !! j
    | Some v =>
        exists c, indexed (obj_at h' A) !! j = Some (VRef c)
          /\ (c ∉ dom h0) /\ (c ∉ dom h) /\ (c ∈ dom h') /\ clone_of v c
    end.

(** Two slots of the input that are present get two clones. *)
Definition slots_distinct (h0 : heap) (O A : loc) (k n : nat) (h' : heap) : Prop :=
  forall i j ci cj, (k <= i < j)%nat -> (j < k + n)%nat ->
    is_Some (indexed (obj_at h0 O) !! i) ->
    is_Some (indexed (obj_at h0 O) !! j) ->
    indexed (obj_at h' A) !! i = Some (VRef ci) ->
    indexed (obj_at h' A) !! j = Some (VRef cj) ->
    ci <> cj.

Lemma map_loop_spec (h0 : heap) (O A : loc) (n : nat) : forall (k : nat) (st : state),
  closed h0 -> O ∈ dom h0 -> A ∉ dom h0 ->
  separated h0 (store st) -> A ∈ dom (store st) ->
  (forall j v, (k <= j < k + n)%nat ->
     indexed (obj_at h0 O) !! j = Some v -> well_formed h0 v) ->
  exists st',
    map_loop O A k n st = Normal st'
    /\ separated h0 (store st')
    /\ dom (store st) ⊆ dom (store st')
    /\ named (obj_at (store st') A) = named (obj_at (store st) A)
    /\ (forall j, ~ (k <= j < k + n)%nat ->
          indexed (obj_at (store st') A) !! j = indexed (obj_at (store st) A) !! j)
    /\ slots_mapped h0 O A k n (store st) (store st')
    /\ cloned st' = cloned st ++ omap (fun j => indexed (obj_at h0 O) !! j) (seq k n)
    /\ slots_distinct h0 O A k n (store st').
Proof.
  induction n as [|n IH]; intros k st C HO HA Hs HAin Hwf.
  - exists st. cbn [map_loop seq omap]. rewrite app_nil_r.
    split; [reflexivity|]. split; [exact Hs|]. split; [reflexivity|].
    split; [reflexivity|]. split; [reflexivity|].
    split; [intros j Hj; lia|]. split; [reflexivity|].
    intros i j ci cj Hi Hj. lia.
  - cbn [map_loop].
    rewrite (obj_at_subseteq h0 (store st) O (proj1 Hs) HO).
    destruct (indexed (obj_at h0 O) !! k) as [v|] eqn:Hk.
    + destruct (clone_callback_spec h0 v st C Hs) as (c & h1 & E & Hc & Hc1 & Hs1 & Hcl).
      { apply (Hwf k v); [lia | exact Hk]. }
      rewrite E. cbn [mbind completion_bind store cloned].
      set (st2 := State (set_index h1 A k (VRef c)) (cloned st ++ [v])).
      assert (HA1 : A ∈ dom h1) by (apply (separated_dom _ _ Hs1); exact HAin).
      assert (Hc0 : c ∉ dom h0).
      { intros H. apply Hc. apply (separated_dom _ _ Hs). exact H. }
      assert (Hs2 : separated h0 (store st2)).
      { apply separated_update.
        - exact (separated_trans _ _ _ Hs Hs1).
        - exact HA1.
        - exact HA.
        - intros r Hr. apply refs_of_set_index in Hr.
          destruct Hr as [Hr|Hr]; [left; exact Hr|].
          injection Hr as <-. right. split; assumption. }
      assert (Hd2 : dom (store st2) = {[A]} ∪ dom h1) by apply dom_insert_L.
      destruct (IH (S k) st2 C HO HA Hs2) as (st' & E' & Hs' & Hd' & Hn' & Hout' & Hin' & Hlog' & Hdis').
      { rewrite Hd2. apply elem_of_union. left. apply elem_of_singleton. reflexivity. }
      { intros j w Hj. apply Hwf. lia. }
      exists st'. split; [exact E'|]. split; [exact Hs'|].
      assert (HoA : obj_at h1 A = obj_at (store st) A)
        by (apply obj_at_subseteq; [exact (proj1 Hs1) | exact HAin]).
      split.
      { intros x Hx. apply Hd'. rewrite Hd2. apply elem_of_union. right.
        apply (separated_dom _ _ Hs1). exact Hx. }
      split.
      { rewrite Hn'. subst st2. cbn [store]. rewrite obj_at_set_index.
        rewrite decide_True by reflexivity. cbn [named]. rewrite HoA. reflexivity. }
      split.
      { intros j Hj. rewrite Hout' by lia.
        subst st2. cbn [store]. rewrite obj_at_set_index.
        rewrite decide_True by reflexivity. cbn [indexed].
        rewrite lookup_insert_ne by lia. rewrite HoA. reflexivity. }
      split.
      { intros j Hj. destruct (decide (j = k)) as [->|Hjk].
        - rewrite Hk. exists c. split.
          + rewrite Hout' by lia.
            subst st2. cbn [store]. rewrite obj_at_set_index.
            rewrite decide_True by reflexivity. cbn [indexed].
            apply lookup_insert_eq.
          + split; [exact Hc0|]. split; [exact Hc|]. split; [|exact Hcl].
            apply Hd'. rewrite Hd2. apply elem_of_union. right. exact Hc1.
        - specialize (Hin' j ltac:(lia)).
          destruct (indexed (obj_at h0 O) !! j) as [w|].
          { destruct Hin' as (c' & Ec' & Hc0' & Hc2' & Hc' & Hcl').
            exists c'. split; [exact Ec'|]. split; [exact Hc0'|].
            split; [|split; assumption].
            intros Hx. apply Hc2'. rewrite Hd2. apply elem_of_union. right.
            apply (separated_dom _ _ Hs1). exact Hx. }
          rewrite Hin'. subst st2. cbn [store]. rewrite obj_at_set_index.
          rewrite decide_True by reflexivity. cbn [indexed].
          rewrite lookup_insert_ne by lia. rewrite HoA. reflexivity. }
      split.
      { rewrite Hlog'. subst st2. cbn [cloned]. rewrite omap_seq_S, Hk.
        rewrite <- app_assoc. reflexivity. }
      intros i j ci cj Hi Hj Hsi Hsj Eci Ecj.
      destruct (decide (i = k)) as [->|Hik].
      * assert (ci = c) as ->.
        { rewrite Hout' in Eci by lia.
          subst st2. cbn [store] in Eci. rewrite obj_at_set_index in Eci.
          rewrite decide_True in Eci by reflexivity. cbn [indexed] in Eci.
          rewrite lookup_insert_eq in Eci. congruence. }
        specialize (Hin' j ltac:(lia)). destruct Hsj as [w Hw]. rewrite Hw in Hin'.
        destruct Hin' as (c' & Ec' & _ & Hc2' & _).
        assert (cj = c') as -> by congruence.
        intros <-. apply Hc2'. rewrite Hd2.
        apply elem_of_union. right. exact Hc1.
      * apply (Hdis' i j ci cj); try assumption; lia.
    + destruct (IH (S k) st C HO HA Hs HAin) as (st' & E' & Hs' & Hd' & Hn' & Hout' & Hin' & Hlog' & Hdis').
      { intros j w Hj. apply Hwf. lia. }
      exists st'. split; [exact E'|]. split; [exact Hs'|]. split; [exact Hd'|].
      split; [exact Hn'|]. split.
      { intros j Hj. apply Hout'. lia. }
      split.
      { intros j Hj. destruct (decide (j = k)) as [->|Hjk].
        - rewrite Hk. apply Hout'. lia.
        - apply Hin'. lia. }
      split; [rewrite Hlog', omap_seq_S, Hk; reflexivity|].
      intros i j ci cj Hi Hj Hsi Hsj Eci Ecj.
      destruct (decide (i = k)) as [->|Hik].
      * rewrite Hk in Hsi. destruct Hsi; discriminate.
      * apply (Hdis' i j ci cj); try assumption; lia.
Qed.

(** What the loop of [forEach] may change: the [parent] of an object,
    and only to [root]. *)
Definition parents_set (root : loc) (h h' : heap) : Prop :=
  dom h' = dom h
  /\ forall l,
       indexed (obj_at h' l) = indexed (obj_at h l)
       /\ (forall key, key <> "parent" ->
             named (obj_at h' l) !! key = named (obj_at h l) !! key)
       /\ (named (obj_at h' l) !! "parent" = named (obj_at h l) !! "parent"
           \/ named (obj_at h' l) !! "parent" = Some (VRef root)).

Lemma parents_set_refl root h : parents_set root h h.
Proof. split; [reflexivity|]. intros l. split; [reflexivity|]. split; auto. Qed.

Lemma parents_set_trans root h1 h2 h3 :
  parents_set root h1 h2 -> parents_set root h2 h3 -> parents_set root h1 h3.
Proof.
  intros [D1 P1] [D2 P2]. split; [congruence|]. intros l.
  destruct (P1 l) as (I1 & N1 & Q1). destruct (P2 l) as (I2 & N2 & Q2).
  split; [congruence|]. split.
  - intros key Hk. rewrite (N2 key Hk). apply N1. exact Hk.
  - destruct Q2 as [Q2|Q2]; [|right; exact Q2].
    rewrite Q2. exact Q1.
Qed.

Lemma parents_set_step root h c :
  c ∈ dom h -> parents_set root h (set_named h c "parent" (VRef root)).
Proof.
  intros Hc. split.
  - unfold set_named. rewrite dom_insert_L.
    apply set_eq. intros x. rewrite elem_of_union, elem_of_singleton.
    split; [intros [->|H]; assumption | intros H; right; exact H].
  - intros l. rewrite obj_at_set_named.
    destruct (decide (c = l)) as [<-|Hne]; cbn [named indexed].
    + split; [reflexivity|]. split.
      * intros key Hk. apply lookup_insert_ne. congruence.
      * right. apply lookup_insert_eq.
    + split; [reflexivity|]. split; auto.
Qed.

Lemma forEach_loop_spec (h0 : heap) (A root : loc) (n : nat) : forall (k : nat) (h : heap),
  separated h0 h -> root ∈ dom h -> root ∉ dom h0 ->
  (forall j v, (k <= j < k + n)%nat -> indexed (obj_at h A) !! j = Some v ->
     exists c, v = VRef c /\ c ∈ dom h /\ c ∉ dom h0) ->
  exists h',
    forEach_loop A root k n h = Normal h'
    /\ separated h0 h'
    /\ parents_set root h h'
    /\ forall j c, (k <= j < k + n)%nat ->
         indexed (obj_at h A) !! j = Some (VRef c) ->
         named (obj_at h' c) !! "parent" = Some (VRef root).
Proof.
  induction n as [|n IH]; intros k h Hs Hr Hr0 Hel.
  - exists h. split; [reflexivity|]. split; [exact Hs|].
    split; [apply parents_set_refl|]. intros j c Hj. lia.
  - cbn [forEach_loop].
    destruct (indexed (obj_at h A) !! k) as [v|] eqn:Hk.
    + destruct (Hel k v ltac:(lia) Hk) as (c & -> & Hc & Hc0).
      cbn [assign_parent mbind completion_bind].
      set (h1 := set_named h c "parent" (VRef root)).
      assert (P1 : parents_set root h h1) by (apply parents_set_step; exact Hc).
      assert (Hs1 : separated h0 h1).
      { apply separated_update; [exact Hs | exact Hc | exact Hc0 |].
        intros r Hrf. apply refs_of_set_named in Hrf.
        destruct Hrf as [Hrf|Hrf]; [left; exact Hrf|].
        injection Hrf as <-. right. split; assumption. }
      destruct (IH (S k) h1 Hs1) as (h' & E & Hs' & P' & Hpar).
      { rewrite (proj1 P1). exact Hr. }
      { exact Hr0. }
      { intros j v Hj Hv. rewrite (proj1 (proj2 P1 A)) in Hv.
        destruct (Hel j v ltac:(lia) Hv) as (c' & -> & Hc' & Hc0').
        exists c'. split; [reflexivity|]. rewrite (proj1 P1). split; assumption. }
      exists h'. split; [exact E|]. split; [exact Hs'|].
      split; [exact (parents_set_trans _ _ _ _ P1 P')|].
      intros j c' Hj Hv. destruct (decide (j = k)) as [->|Hjk].
      * assert (c' = c) as -> by congruence.
        destruct (proj2 (proj2 (proj2 P' c))) as [Q|Q]; [|exact Q].
        rewrite Q. subst h1. rewrite obj_at_set_named.
        rewrite decide_True by reflexivity. apply lookup_insert_eq.
      * apply (Hpar j c'); [lia|].
        rewrite (proj1 (proj2 P1 A)). exact Hv.
    + destruct (IH (S k) h Hs Hr Hr0) as (h' & E & Hs' & P' & Hpar).
      { intros j v Hj. apply Hel. lia. }
      exists h'. split; [exact E|]. split; [exact Hs'|]. split; [exact P'|].
      intros j c Hj Hv. destruct (decide (j = k)) as [->|Hjk]; [congruence|].
      apply (Hpar j c); [lia | exact Hv].
Qed.

(** The object of a new document. *)
Definition document_object (children : loc) : object :=
  Object (<["type" := VString "root"]>
          (<["parent" := VNull]>
          (<["prev" := VNull]>
          (<["next" := VNull]>
          (<["startIndex" := VNull]>
          (<["endIndex" := VNull]>
          {["children" := VRef children]})))))) ∅.

Lemma document_object_refs children r :
  refs_of (document_object children) r -> r = children.
Proof.
  intros [[k Hk] | [j Hj]]; cbn [document_object named indexed] in *.
  - repeat (rewrite lookup_insert in Hk; destruct (decide _); [discriminate|]).
    rewrite lookup_singleton in Hk. destruct (decide _); [|discriminate].
    congruence.
  - rewrite lookup_empty in Hj. discriminate.
Qed.

(** The second half of [cloneDom]: the document and the parent pointers. *)
Lemma reparent_spec (h0 h1 : heap) (A : loc) (len : Z) :
  separated h0 h1 -> A ∈ dom h1 -> A ∉ dom h0 ->
  named (obj_at h1 A) !! "length" = Some (VNumber len) ->
  0 <= len <= 2 ^ 32 - 1 ->
  (forall j v, indexed (obj_at h1 A) !! j = Some v ->
     exists c, v = VRef c /\ c ∈ dom h1 /\ c ∉ dom h0) ->
  exists root h2 h3,
    newDocument A h1 = (root, h2)
    /\ forEach_set_parent A root h2 = Normal h3
    /\ (root ∉ dom h1)
    /\ separated h0 h3
    /\ (forall x, x ∈ dom h1 -> x ∈ dom h3)
    /\ (root ∈ dom h3)
    /\ indexed (obj_at h3 A) = indexed (obj_at h1 A)
    /\ named (obj_at h3 A) !! "length" = Some (VNumber len)
    /\ named (obj_at h3 root) !! "type" = Some (VString "root")
    /\ named (obj_at h3 root) !! "children" = Some (VRef A)
    /\ forall j c, (Z.of_nat j < len) -> indexed (obj_at h1 A) !! j = Some (VRef c) ->
         named (obj_at h3 c) !! "parent" = Some (VRef root).
Proof.
  intros Hs HA HA0 Hlen Hrange Hel.
  set (root := fresh (dom h1)).
  set (h2 := <[root := document_object A]> h1).
  assert (Hroot : root ∉ dom h1) by apply is_fresh.
  assert (Hroot0 : root ∉ dom h0).
  { intros H. apply Hroot. apply (separated_dom _ _ Hs). exact H. }
  assert (HrA : root <> A) by (intros E; apply Hroot; rewrite E; exact HA).
  assert (Hd2 : dom h2 = {[root]} ∪ dom h1) by apply dom_insert_L.
  assert (Hs2 : separated h0 h2).
  { apply separated_insert; [exact Hs | exact Hroot0 |].
    intros r Hr. apply document_object_refs in Hr. subst r.
    split; [|exact HA0]. fold h2. rewrite Hd2. apply elem_of_union. right. exact HA. }
  assert (HoA2 : obj_at h2 A = obj_at h1 A).
  { subst h2. rewrite obj_at_insert. rewrite decide_False by exact HrA. reflexivity. }
  assert (Hor2 : obj_at h2 root = document_object A).
  { subst h2. rewrite obj_at_insert. rewrite decide_True by reflexivity. reflexivity. }
  destruct (forEach_loop_spec h0 A root (Z.to_nat len) 0 h2 Hs2)
    as (h3 & E & Hs3 & [Hd3 P3] & Hpar).
  { rewrite Hd2. apply elem_of_union. left. apply elem_of_singleton. reflexivity. }
  { exact Hroot0. }
  { intros j v _ Hv. rewrite HoA2 in Hv.
    destruct (Hel j v Hv) as (c & -> & Hc & Hc0).
    exists c. split; [reflexivity|]. split; [|exact Hc0].
    rewrite Hd2. apply elem_of_union. right. exact Hc. }
  exists root, h2, h3.
  split; [reflexivity|]. split.
  { unfold forEach_set_parent, get_named. rewrite HoA2, Hlen. unfold default, from_option, id.
    rewrite ToLength_number.
    replace (0 `max` (len `min` (2 ^ 53 - 1))) with len by lia. exact E. }
  split; [exact Hroot|]. split; [exact Hs3|]. split.
  { intros x Hx. rewrite Hd3, Hd2. apply elem_of_union. right. exact Hx. }
  split.
  { rewrite Hd3, Hd2. apply elem_of_union. left. apply elem_of_singleton. reflexivity. }
  destruct (P3 A) as (IA & NA & QA). destruct (P3 root) as (Ir & Nr & Qr).
  split; [rewrite IA, HoA2; reflexivity|].
  split; [rewrite NA by discriminate; rewrite HoA2; exact Hlen|].
  split; [rewrite Nr by discriminate; rewrite Hor2; reflexivity|].
  split; [rewrite Nr by discriminate; rewrite Hor2; reflexivity|].
  intros j c Hj Hv. apply (Hpar j c); [lia|]. rewrite HoA2. exact Hv.
Qed.


(** What a call [cloneDom(dom)] from state [st] produced: the list [A],
    the document [root] and the final state. *)
Definition clone_result (st : state) (input A root : loc) (st' : state) : Prop :=
  let h0 := store st in
  let h' := store st' in
  (A ∉ dom h0) /\ (root ∉ dom h0) /\ A <> root
  /\ (A ∈ dom h') /\ (root ∈ dom h')
  /\ separated h0 h'
  /\ named (obj_at h' A) !! "length" = Some (VNumber (out_length h0 input))
  /\ named (obj_at h' root) !! "type" = Some (VString "root")
  /\ named (obj_at h' root) !! "children" = Some (VRef A)
  /\ (forall j,
        match source_at h0 input j with
        | None => indexed (obj_at h' A) !! j = None
        | Some v =>
            exists c, indexed (obj_at h' A) !! j = Some (VRef c)
              /\ (c ∉ dom h0) /\ (c ∈ dom h') /\ clone_of v c
              /\ named (obj_at h' c) !! "parent" = Some (VRef root)
        end)
  /\ cloned st' = cloned st ++ sources h0 input
  /\ (forall i j ci cj, i <> j ->
        indexed (obj_at h' A) !! i = Some (VRef ci) ->
        indexed (obj_at h' A) !! j = Some (VRef cj) ->
        ci <> cj).

Lemma length_object_refs (len : Z) (items : gmap nat val) r :
  refs_of (Object {["length" := VNumber len]} items) r ->
  exists i, items !! i = Some (VRef r).
Proof.
  intros [[k Hk] | Hi]; cbn [named indexed] in *; [|exact Hi].
  rewrite lookup_singleton in Hk. destruct (decide _); discriminate.
Qed.

Lemma cloneDom_sequence (input : loc) (st : state) :
  input_ok (store st) input ->
  has_named (store st) input "length" = true ->
  exists A root st',
    cloneDom input st = Normal (A, st') /\ clone_result st input A root st'.
Proof.
  intros (C & Hin0 & Hmax & Hwf) Hlen.
  destruct st as [h0 log]. cbn [store cloned] in *.
  pose proof Hmax as Hmax'. unfold out_length in Hmax'. rewrite Hlen in Hmax'.
  set (len := ToLength (get_named h0 input "length")) in *.
  pose proof (ToLength_range (get_named h0 input "length")) as Hrange. fold len in Hrange.
  set (A := fresh (dom h0)).
  set (oA := Object {["length" := VNumber len]} ∅).
  set (h1 := <[A := oA]> h0).
  assert (HA0 : A ∉ dom h0) by apply is_fresh.
  assert (Hd1 : dom h1 = {[A]} ∪ dom h0) by apply dom_insert_L.
  assert (HA1 : A ∈ dom h1).
  { rewrite Hd1. apply elem_of_union. left. apply elem_of_singleton. reflexivity. }
  assert (Hs1 : separated h0 h1).
  { apply separated_insert; [apply separated_refl | exact HA0 |].
    intros r Hr. apply length_object_refs in Hr. destruct Hr as [i Hi].
    rewrite lookup_empty in Hi. discriminate. }
  assert (HoA1 : obj_at h1 A = oA).
  { subst h1. rewrite obj_at_insert. rewrite decide_True by reflexivity. reflexivity. }
  destruct (map_loop_spec h0 input A (Z.to_nat len) 0 (State h1 log) C)
    as (st1 & E1 & Hs' & Hd' & Hn' & Hout' & Hin' & Hlog' & Hdis').
  { apply elem_of_dom. exact Hin0. }
  { exact HA0. }
  { exact Hs1. }
  { exact HA1. }
  { intros j v Hj Hv. apply (Hwf j). unfold source_at. rewrite Hlen. fold len.
    rewrite decide_True by lia. exact Hv. }
  unfold slots_mapped in Hin'. cbn [store cloned] in *.
  rewrite HoA1 in Hn'.
  assert (Hempty : forall j, indexed (obj_at h1 A) !! j = None).
  { intros j. rewrite HoA1. apply lookup_empty. }
  destruct (reparent_spec h0 (store st1) A len Hs')
    as (root & h2 & h3 & E2 & E3 & Hroot & Hs3 & Hd3 & Hr3 & IA & LA & Ty & Ch & Hpar).
  { apply Hd'. exact HA1. }
  { exact HA0. }
  { rewrite Hn'. apply lookup_singleton_eq. }
  { lia. }
  { intros j v Hv. destruct (decide (0 <= j < 0 + Z.to_nat len)%nat) as [Hj|Hj].
    - specialize (Hin' j Hj).
      destruct (indexed (obj_at h0 input) !! j) as [w|].
      + destruct Hin' as (c & Ec & Hc0 & _ & Hc & _). exists c.
        split; [congruence|]. split; assumption.
      + rewrite Hin', Hempty in Hv. discriminate.
    - rewrite (Hout' j Hj), Hempty in Hv. discriminate. }
  exists A, root, (State h3 (cloned st1)). split.
  { unfold cloneDom. cbn [store]. rewrite Hlen. unfold array_map. cbn [store cloned].
    fold len. destruct (Z.ltb_spec (2 ^ 32 - 1) len) as [Hbig|_]; [lia|].
    unfold alloc. fold A. fold oA. fold h1. rewrite E1.
    cbn [mbind completion_bind]. rewrite E2. rewrite E3. reflexivity. }
  unfold clone_result. cbn [store cloned].
  split; [exact HA0|]. split.
  { intros H. apply Hroot. apply (separated_dom _ _ Hs'). exact H. }
  split; [intros ->; apply Hroot, Hd'; exact HA1|].
  split; [apply Hd3, Hd'; exact HA1|]. split; [exact Hr3|].
  split; [exact Hs3|]. split.
  { unfold out_length. rewrite Hlen. exact LA. }
  split; [exact Ty|]. split; [exact Ch|]. split.
  - intros j. unfold source_at. rewrite Hlen. fold len. rewrite IA.
    destruct (decide (Z.of_nat j < len)) as [Hj|Hj].
    + specialize (Hin' j ltac:(lia)).
      destruct (indexed (obj_at h0 input) !! j) as [w|].
      * destruct Hin' as (c & Ec & Hc0 & _ & Hc & Hcl). exists c.
        split; [exact Ec|]. split; [exact Hc0|]. split; [apply Hd3; exact Hc|].
        split; [exact Hcl|]. apply (Hpar j c Hj Ec).
      * rewrite Hin'. apply Hempty.
    + rewrite Hout' by lia. apply Hempty.
  - split.
    { rewrite Hlog'. f_equal. unfold sources, out_length. rewrite Hlen. fold len.
      apply omap_ext_seq. intros j Hj. unfold source_at. rewrite Hlen. fold len.
      rewrite decide_True by lia. reflexivity. }
    assert (Hsrc : forall i ci, indexed (obj_at (store st1) A) !! i = Some (VRef ci) ->
              (i < Z.to_nat len)%nat /\ is_Some (indexed (obj_at h0 input) !! i)).
    { intros i ci Hi. destruct (decide (0 <= i < 0 + Z.to_nat len)%nat) as [Hr|Hr].
      - split; [lia|]. specialize (Hin' i Hr).
        destruct (indexed (obj_at h0 input) !! i); [eauto|].
        rewrite Hin', Hempty in Hi. discriminate.
      - rewrite (Hout' i Hr), Hempty in Hi. discriminate. }
    rewrite IA. intros i j ci cj Hij Hi Hj.
    destruct (Hsrc i ci Hi) as [Hli Hsi]. destruct (Hsrc j cj Hj) as [Hlj Hsj].
    destruct (Nat.lt_total i j) as [Hlt|[Heq|Hgt]]; [|contradiction|].
    + apply (Hdis' i j ci cj); try assumption; lia.
    + intros E. symmetry in E. revert E.
      apply (Hdis' j i cj ci); try assumption; lia.
Qed.

Lemma cloneDom_single (input : loc) (st : state) :
  input_ok (store st) input ->
  has_named (store st) input "length" = false ->
  exists A root st',
    cloneDom input st = Normal (A, st') /\ clone_result st input A root st'.
Proof.
  intros (C & Hin0 & Hmax & Hwf) Hlen.
  destruct st as [h0 log]. cbn [store cloned] in *.
  destruct (clone_callback_spec h0 (VRef input) (State h0 log) C (separated_refl h0))
    as (c & h1 & E1 & Hc0 & Hc1 & Hs1 & Hcl).
  { apply (Hwf 0%nat). unfold source_at. rewrite Hlen. reflexivity. }
  cbn [store cloned] in *.
  set (A := fresh (dom h1)).
  set (oA := Object {["length" := VNumber 1]} {[0%nat := VRef c]}).
  set (hA := <[A := oA]> h1).
  assert (HA1 : A ∉ dom h1) by apply is_fresh.
  assert (HA0 : A ∉ dom h0).
  { intros H. apply HA1. apply (separated_dom _ _ Hs1). exact H. }
  assert (HdA : dom hA = {[A]} ∪ dom h1) by apply dom_insert_L.
  assert (HAA : A ∈ dom hA).
  { rewrite HdA. apply elem_of_union. left. apply elem_of_singleton. reflexivity. }
  assert (HcA : c ∈ dom hA).
  { rewrite HdA. apply elem_of_union. right. exact Hc1. }
  assert (HsA : separated h0 hA).
  { apply separated_insert; [exact Hs1 | exact HA0 |].
    intros r Hr. apply length_object_refs in Hr. destruct Hr as [i Hi].
    rewrite lookup_singleton in Hi. destruct (decide _); [|discriminate].
    injection Hi as <-. split; [exact HcA | exact Hc0]. }
  assert (HoA : obj_at hA A = oA).
  { subst hA. rewrite obj_at_insert. rewrite decide_True by reflexivity. reflexivity. }
  destruct (reparent_spec h0 hA A 1 HsA HAA HA0)
    as (root & h2 & h3 & E2 & E3 & Hroot & Hs3 & Hd3 & Hr3 & IA & LA & Ty & Ch & Hpar).
  { rewrite HoA. apply lookup_singleton_eq. }
  { lia. }
  { intros j v Hv. rewrite HoA in Hv. cbn [indexed oA] in Hv.
    rewrite lookup_singleton in Hv. destruct (decide _); [|discriminate].
    injection Hv as <-. exists c. split; [reflexivity|]. split; assumption. }
  exists A, root, (State h3 (log ++ [VRef input])). split.
  { unfold cloneDom. cbn [store]. rewrite Hlen. unfold array_of_clone.
    rewrite E1. cbn [mbind completion_bind store cloned].
    unfold alloc. fold A. fold oA. fold hA.
    cbn [mbind completion_bind store cloned]. rewrite E2, E3. reflexivity. }
  unfold clone_result. cbn [store cloned].
  split; [exact HA0|]. split.
  { intros H. apply Hroot. apply (separated_dom _ _ HsA). exact H. }
  split; [intros ->; apply Hroot; exact HAA|].
  split; [apply Hd3; exact HAA|]. split; [exact Hr3|].
  split; [exact Hs3|]. split.
  { unfold out_length. rewrite Hlen. exact LA. }
  split; [exact Ty|]. split; [exact Ch|]. split.
  - intros j. unfold source_at. rewrite Hlen, IA, HoA. cbn [indexed oA].
    destruct (decide (j = 0%nat)) as [->|Hj].
    + exists c. split; [apply lookup_singleton_eq|]. split; [exact Hc0|].
      split; [apply Hd3; exact HcA|]. split; [exact Hcl|].
      apply (Hpar 0%nat c); [lia|]. rewrite HoA. apply lookup_singleton_eq.
    + apply lookup_singleton_ne. congruence.
  - split.
    { unfold sources, out_length. rewrite Hlen.
      change (Z.to_nat 1) with 1%nat. rewrite omap_seq_S.
      unfold source_at at 1. rewrite Hlen. reflexivity. }
    rewrite IA, HoA. cbn [indexed oA]. intros i j ci cj Hij Hi Hj.
    rewrite lookup_singleton in Hi, Hj.
    destruct (decide (0%nat = i)); [|discriminate].
    destruct (decide (0%nat = j)); [|discriminate]. congruence.
Qed.

(** [cloneDom] on a well-formed input returns, and what it returns is
    described by [clone_result]. *)
Lemma cloneDom_spec (input : loc) (st : state) :
  input_ok (store st) input ->
  exists A root st',
    cloneDom input st = Normal (A, st') /\ clone_result st input A root st'.
Proof.
  intros Hok. destruct (has_named (store st) input "length") eqn:Hlen.
  - apply cloneDom_sequence; assumption.
  - apply cloneDom_single; assumption.
Qed.

(** The list held by the [children] property of [root]. *)
Definition children_list (h : heap) (root : loc) : option object :=
  match get_named h root "children" with
  | VRef a => h !! a
  | _ => None
  end.

Lemma has_named_true (h : heap) l k :
  has_named h l k = true <-> is_Some (named (obj_at h l) !! k).
Proof. unfold has_named. apply bool_decide_eq_true. Qed.

Lemma has_named_false (h : heap) l k :
  has_named h l k = false <-> named (obj_at h l) !! k = None.
Proof.
  unfold has_named. rewrite bool_decide_eq_false. split.
  - intros H. destruct (named (obj_at h l) !! k) eqn:E; [|reflexivity].
    exfalso. apply H. eauto.
  - intros -> [? ?]. discriminate.
Qed.

Lemma get_named_lookup (h : heap) l k v :
  named (obj_at h l) !! k = Some v -> get_named h l k = v.
Proof. unfold get_named. intros ->. reflexivity. Qed.

(** C2. For a single node, [cloneDom] returns a list of length 1 that
    holds the node's clone; for an array, it returns a new list of the
    same length whose slots hold, in the order of the input, the clones of
    the input's slots; and after the call the parent of every node in the
    returned list is a document created by the call, which no object that
    existed before refers to as a parent. *)
Theorem cloneDom_list_and_parent (input : loc) (st : state) :
  input_ok (store st) input ->
  exists A root st',
    cloneDom input st = Normal (A, st')
    /\ (A ∉ dom (store st))
    /\ (named (obj_at (store st) input) !! "length" = None ->
          get_named (store st') A "length" = VNumber 1
          /\ exists c, indexed (obj_at (store st') A) !! 0%nat = Some (VRef c)
               /\ clone_of (VRef input) c)
    /\ (forall n, named (obj_at (store st) input) !! "length" = Some (VNumber n) ->
          0 <= n ->
          get_named (store st') A "length" = VNumber n
          /\ (forall j, Z.of_nat j < n ->
                match indexed (obj_at (store st) input) !! j with
                | None => indexed (obj_at (store st') A) !! j = None
                | Some v =>
                    exists c, indexed (obj_at (store st') A) !! j = Some (VRef c)
                      /\ clone_of v c
                end)
          /\ cloned st' = cloned st
               ++ omap (fun j => indexed (obj_at (store st) input) !! j)
                       (seq 0 (Z.to_nat n)))
    /\ (root ∉ dom (store st))
    /\ get_named (store st') root "type" = VString "root"
    /\ (forall j v, indexed (obj_at (store st') A) !! j = Some v ->
          exists c, v = VRef c /\ (c ∉ dom (store st))
            /\ get_named (store st') c "parent" = VRef root)
    /\ (forall s p, s ∈ dom (store st) ->
          get_named (store st') s "parent" = VRef p -> p <> root).
Proof.
  intros Hok. pose proof Hok as (C & Hin0 & Hmax & Hwf).
  destruct (cloneDom_spec input st Hok)
    as (A & root & st' & E & HA0 & Hr0 & HAr & HA & Hr & Hs & Hlen & Hty & Hch & Hslots & Hlog & Hdist).
  exists A, root, st'. split; [exact E|]. split; [exact HA0|].
  split.
  { intros Hnone.
    assert (Hb : has_named (store st) input "length" = false)
      by (apply has_named_false; exact Hnone).
    unfold out_length in Hlen. rewrite Hb in Hlen.
    split; [apply get_named_lookup; exact Hlen|].
    specialize (Hslots 0%nat). unfold source_at in Hslots. rewrite Hb in Hslots.
    cbn in Hslots. destruct Hslots as (c & Ec & _ & _ & Hcl & _).
    exists c. split; assumption. }
  split.
  { intros n Hn Hn0.
    assert (Hb : has_named (store st) input "length" = true)
      by (apply has_named_true; rewrite Hn; eauto).
    assert (Hl : ToLength (get_named (store st) input "length") = n).
    { rewrite (get_named_lookup _ _ _ _ Hn), ToLength_number.
      unfold out_length in Hmax. rewrite Hb in Hmax.
      rewrite (get_named_lookup _ _ _ _ Hn), ToLength_number in Hmax. lia. }
    unfold out_length in Hlen. rewrite Hb, Hl in Hlen.
    split; [apply get_named_lookup; exact Hlen|]. split.
    - intros j Hj. specialize (Hslots j). unfold source_at in Hslots.
      rewrite Hb, Hl in Hslots. rewrite decide_True in Hslots by exact Hj.
      destruct (indexed (obj_at (store st) input) !! j) as [v|]; [|exact Hslots].
      destruct Hslots as (c & Ec & _ & _ & Hcl & _). exists c. split; assumption.
    - rewrite Hlog. f_equal. unfold sources, out_length. rewrite Hb, Hl.
      apply omap_ext_seq. intros j Hj. unfold source_at. rewrite Hb, Hl.
      rewrite decide_True by lia. reflexivity. }
  split; [exact Hr0|]. split; [apply get_named_lookup; exact Hty|]. split.
  { intros j v Hv. specialize (Hslots j).
    destruct (source_at (store st) input j) as [w|]; [|congruence].
    destruct Hslots as (c & Ec & Hc0 & _ & _ & Hpar).
    exists c. split; [congruence|]. split; [exact Hc0|].
    apply get_named_lookup. exact Hpar. }
  intros s p Hs0 Hp ->. apply Hr0.
  apply elem_of_dom in Hs0. destruct Hs0 as [o Ho].
  apply (C s o root Ho). left. exists "parent".
  pose proof (lookup_weaken _ _ _ _ Ho (proj1 Hs)) as Ho'.
  unfold get_named in Hp. rewrite (obj_at_lookup _ _ _ Ho') in Hp.
  destruct (named o !! "parent") as [w|]; cbn in Hp; congruence.
Qed.

(** C3. For a well-formed input, [cloneDom] leaves every object that
    existed as it was, parent reference and children list included; what
    can be reached from a returned node did not exist before, and what
    can be reached from an object that existed is not part of the clones.
    So a change to an object of a clone's subtree, a new parent or any
    other, leaves the source as it was, and a change to a source object
    leaves the clones as they are. *)
Theorem cloneDom_source_untouched (input : loc) (st : state) :
  input_ok (store st) input ->
  exists A st',
    cloneDom input st = Normal (A, st')
    /\ (forall s o, store st !! s = Some o -> store st' !! s = Some o)
    /\ (forall j c l, indexed (obj_at (store st') A) !! j = Some (VRef c) ->
          reach (store st') c l -> l ∉ dom (store st))
    /\ (forall s l, s ∈ dom (store st) -> reach (store st') s l -> l ∈ dom (store st))
    /\ (forall j c l (o' : object) s, indexed (obj_at (store st') A) !! j = Some (VRef c) ->
          reach (store st') c l -> s ∈ dom (store st) ->
          <[l := o']> (store st') !! s = store st !! s)
    /\ (forall j c l (o' : object) s, indexed (obj_at (store st') A) !! j = Some (VRef c) ->
          reach (store st') c l -> s ∈ dom (store st) ->
          <[s := o']> (store st') !! l = store st' !! l).
Proof.
  intros Hok. pose proof Hok as (C & _).
  destruct (cloneDom_spec input st Hok)
    as (A & root & st' & E & HA0 & Hr0 & HAr & HA & Hr & Hs & Hlen & Hty & Hch & Hslots & Hlog & Hdist).
  assert (Hfresh : forall j c, indexed (obj_at (store st') A) !! j = Some (VRef c) ->
            c ∉ dom (store st)).
  { intros j c Hc. specialize (Hslots j).
    destruct (source_at (store st) input j) as [w|]; [|congruence].
    destruct Hslots as (c' & Ec & Hc0 & _). congruence. }
  assert (Hkeep : forall s, s ∈ dom (store st) -> store st' !! s = store st !! s).
  { intros s Hs0. apply elem_of_dom in Hs0. destruct Hs0 as [o Ho].
    rewrite Ho. exact (lookup_weaken _ _ _ _ Ho (proj1 Hs)). }
  exists A, st'. split; [exact E|]. split.
  { intros s o Ho. exact (lookup_weaken _ _ _ _ Ho (proj1 Hs)). }
  split.
  { intros j c l Hc Hreach. exact (reach_added _ _ _ _ Hs Hreach (Hfresh j c Hc)). }
  split.
  { intros s l Hs0 Hreach. exact (reach_old _ _ _ _ C Hs Hreach Hs0). }
  split.
  - intros j c l o' s Hc Hreach Hs0.
    rewrite lookup_insert_ne; [apply Hkeep; exact Hs0|].
    intros <-. exact (reach_added _ _ _ _ Hs Hreach (Hfresh j c Hc) Hs0).
  - intros j c l o' s Hc Hreach Hs0.
    apply lookup_insert_ne.
    intros <-. exact (reach_added _ _ _ _ Hs Hreach (Hfresh j c Hc) Hs0).
Qed.

(** C9. The list [cloneDom] returns is the one the document it created
    holds as [children]: the property stores the very reference that is
    returned, so whatever is written to the returned list afterwards is
    what the document's children list reads. *)
Theorem cloneDom_returns_document_children (input : loc) (st : state) :
  input_ok (store st) input ->
  exists A root st',
    cloneDom input st = Normal (A, st')
    /\ (root ∉ dom (store st))
    /\ get_named (store st') root "type" = VString "root"
    /\ get_named (store st') root "children" = VRef A
    /\ children_list (store st') root = store st' !! A
    /\ forall o', children_list (<[A := o']> (store st')) root = Some o'.
Proof.
  intros Hok.
  destruct (cloneDom_spec input st Hok)
    as (A & root & st' & E & HA0 & Hr0 & HAr & HA & Hr & Hs & Hlen & Hty & Hch & Hslots & Hlog & Hdist).
  exists A, root, st'. split; [exact E|]. split; [exact Hr0|].
  split; [apply get_named_lookup; exact Hty|].
  split; [apply get_named_lookup; exact Hch|]. split.
  - unfold children_list. rewrite (get_named_lookup _ _ _ _ Hch). reflexivity.
  - intros o'. unfold children_list, get_named.
    rewrite obj_at_insert, decide_False by exact HAr.
    rewrite Hch. cbn. apply lookup_insert_eq.
Qed.


(** *** Further properties of [cloneDom] *)


(** X13. The nodes of the returned list are pairwise different objects:
    two slots of the result never hold the same node, and any two slots
    the input fills, also with one and the same node, are filled in the
    result with two different clones. *)
Theorem cloneDom_clones_distinct (input : loc) (st : state) :
  input_ok (store st) input ->
  exists A st',
    cloneDom input st = Normal (A, st')
    /\ (forall i j ci cj, i <> j ->
          indexed (obj_at (store st') A) !! i = Some (VRef ci) ->
          indexed (obj_at (store st') A) !! j = Some (VRef cj) ->
          ci <> cj)
    /\ (forall i j vi vj, i <> j ->
          source_at (store st) input i = Some vi ->
          source_at (store st) input j = Some vj ->
          exists ci cj,
            indexed (obj_at (store st') A) !! i = Some (VRef ci)
            /\ indexed (obj_at (store st') A) !! j = Some (VRef cj)
            /\ clone_of vi ci /\ clone_of vj cj
            /\ ci <> cj).
Proof.
  intros Hok.
  destruct (cloneDom_spec input st Hok)
    as (A & root & st' & E & HA0 & Hr0 & HAr & HA & Hr & Hs & Hlen & Hty & Hch & Hslots & Hlog & Hdist).
  exists A, st'. split; [exact E|]. split; [exact Hdist|].
  intros i j vi vj Hij Hi Hj.
  pose proof (Hslots i) as Si. pose proof (Hslots j) as Sj.
  rewrite Hi in Si. rewrite Hj in Sj.
  destruct Si as (ci & Eci & _ & _ & Hci & _).
  destruct Sj as (cj & Ecj & _ & _ & Hcj & _).
  exists ci, cj. split; [exact Eci|]. split; [exact Ecj|].
  split; [exact Hci|]. split; [exact Hcj|].
  exact (Hdist i j ci cj Hij Eci Ecj).
Qed.



End CloneDomProofs.

(** *** An environment for leaf nodes *)

(** A runtime conversion that is [ToLength] on numbers, [undefined] and
    [null]. *)
Definition to_length (v : val) : Z :=
  match v with
  | VNumber n => Z.max 0 (Z.min n (2 ^ 53 - 1))
  | _ => 0
  end.

(** A node without children (text, comment): its only references are the
    links to its parent and siblings. *)
Definition leaf_node (h : heap) (v : val) : Prop :=
  exists l o, v = VRef l /\ h !! l = Some o
    /\ indexed o = ∅
    /\ forall k r, named o !! k = Some (VRef r) ->
         k = "parent" \/ k = "prev" \/ k = "next".

(** The copy of a leaf: the payload is kept, the links are [null]. *)
Definition clone_leaf (v : val) (h : heap) : completion (val * heap) :=
  match v with
  | VRef l =>
      let '(c, h') :=
        alloc h (Object (<["parent" := VNull]>
                         (<["prev" := VNull]>
                         (<["next" := VNull]> (named (obj_at h l))))) ∅) in
      Normal (VRef c, h')
  | _ => Throw TypeError
  end.

Lemma to_length_range v : 0 <= to_length v <= 2 ^ 53 - 1.
Proof. destruct v; simpl; lia. Qed.

Lemma leaf_node_mono (h h' : heap) v : h ⊆ h' -> leaf_node h v -> leaf_node h' v.
Proof.
  intros Hsub (l & o & -> & Ho & Hi & Hn).
  exists l, o. split; [reflexivity|]. split; [|split; assumption].
  exact (lookup_weaken _ _ _ _ Ho Hsub).
Qed.

Lemma clone_leaf_spec (h : heap) v :
  closed h -> leaf_node h v ->
  exists c h', clone_leaf v h = Normal (VRef c, h')
    /\ (c ∉ dom h) /\ (c ∈ dom h') /\ separated h h'.
Proof.
  intros _ (l & o & -> & Ho & Hi & Hn).
  unfold clone_leaf, alloc. rewrite (obj_at_lookup h l o Ho).
  eexists _, _. split; [reflexivity|]. split; [apply is_fresh|]. split.
  - rewrite dom_insert_L. apply elem_of_union. left. apply elem_of_singleton. reflexivity.
  - apply separated_insert; [apply separated_refl | apply is_fresh |].
    intros r [[k Hk] | [j Hj]]; cbn [named indexed] in *.
    + exfalso.
      repeat (rewrite lookup_insert in Hk; destruct (decide _) as [<-|?]; [discriminate|]).
      destruct (Hn k r Hk) as [E|[E|E]]; congruence.
    + rewrite lookup_empty in Hj. discriminate.
Qed.

Definition leaf_env : Environment := {|
  ToLength := to_length;
  ToLength_range := to_length_range;
  ToLength_number := fun n => eq_refl;
  cloneNode := clone_leaf;
  well_formed := leaf_node;
  well_formed_mono := leaf_node_mono;
  cloneNode_spec := clone_leaf_spec
|}.

(** A store with a text node and an array that holds it. *)
Definition text_node (data : string) : object :=
  Object (<["type" := VString "text"]>
          (<["data" := VString data]>
          {["parent" := VNull]})) ∅.

Definition sample_store : heap :=
  <[1%positive := text_node "hello"]>
  {[2%positive := Object {["length" := VNumber 1]} {[0%nat := VRef 1%positive]}]}.

Definition sample_state : state := State sample_store [].

Lemma sample_has_length : has_named sample_store 2 "length" = true.
Proof. reflexivity. Qed.

Lemma sample_object_1 : sample_store !! 1%positive = Some (text_node "hello").
Proof. reflexivity. Qed.

Lemma sample_object_2 :
  sample_store !! 2%positive
  = Some (Object {["length" := VNumber 1]} {[0%nat := VRef 1%positive]}).
Proof. reflexivity. Qed.

Lemma text_node_no_refs data k r : named (text_node data) !! k <> Some (VRef r).
Proof.
  unfold text_node. cbn [named]. intros Hk.
  repeat (rewrite lookup_insert in Hk; destruct (decide _); [discriminate|]).
  rewrite lookup_singleton in Hk. destruct (decide _); discriminate.
Qed.

Lemma sample_closed : closed sample_store.
Proof.
  intros l o r Hl Hr. unfold sample_store in Hl.
  rewrite lookup_insert in Hl. destruct (decide (1%positive = l)) as [<-|Hne1].
  - injection Hl as <-. destruct Hr as [[k Hk] | [j Hj]].
    + exfalso. exact (text_node_no_refs _ _ _ Hk).
    + cbn [indexed text_node] in Hj. rewrite lookup_empty in Hj. discriminate.
  - rewrite lookup_singleton in Hl. destruct (decide (2%positive = l)) as [<-|Hne2];
      [|discriminate].
    injection Hl as <-. apply length_object_refs in Hr. destruct Hr as [i Hi].
    rewrite lookup_singleton in Hi. destruct (decide _); [|discriminate].
    injection Hi as <-. apply elem_of_dom. rewrite sample_object_1. eauto.
Qed.

Lemma sample_input_ok : @input_ok leaf_env sample_store 2.
Proof.
  split; [exact sample_closed|]. split; [rewrite sample_object_2; eauto|].
  split; [unfold out_length; rewrite sample_has_length; vm_compute; discriminate|].
  intros j v. unfold source_at. rewrite sample_has_length.
  destruct (decide _) as [Hj|Hj]; [|discriminate].
  assert (j = 0%nat) as ->.
  { change (@ToLength leaf_env (get_named sample_store 2 "length")) with 1 in Hj. lia. }
  unfold obj_at. rewrite sample_object_2. cbn [default from_option id indexed].
  rewrite lookup_singleton_eq. intros [= <-].
  exists 1%positive, (text_node "hello").
  split; [reflexivity|]. split; [exact sample_object_1|]. split; [reflexivity|].
  intros k r Hk. exfalso. exact (text_node_no_refs _ _ _ Hk).
Qed.

(** C2 on the sample: the array of one text node is cloned into a new list
    of length 1 whose node has the new document as parent. *)
Lemma cloneDom_list_and_parent_witness :
  @input_ok leaf_env sample_store 2
  /\ exists (A root : loc) st',
       @cloneDom leaf_env 2 sample_state = Normal (A, st')
       /\ (A ∉ dom sample_store)
       /\ get_named (store st') A "length" = VNumber 1
       /\ get_named (store st') root "type" = VString "root".
Proof.
  split; [exact sample_input_ok|].
  destruct (@cloneDom_list_and_parent leaf_env 2 sample_state sample_input_ok)
    as (A & root & st' & E & HA & _ & Harr & _ & Hty & _).
  exists A, root, st'. split; [exact E|]. split; [exact HA|].
  split; [|exact Hty].
  apply (Harr 1); [reflexivity | lia].
Defined.

(** C3 on the sample: the text node is afterwards what it was before. *)
Lemma cloneDom_source_untouched_witness :
  @input_ok leaf_env sample_store 2
  /\ exists (A : loc) st',
       @cloneDom leaf_env 2 sample_state = Normal (A, st')
       /\ store st' !! 1%positive = Some (text_node "hello").
Proof.
  split; [exact sample_input_ok|].
  destruct (@cloneDom_source_untouched leaf_env 2 sample_state sample_input_ok)
    as (A & st' & E & Hkeep & _).
  exists A, st'. split; [exact E|].
  apply Hkeep. exact sample_object_1.
Defined.

(** C9 on the sample: the document's [children] is the returned list. *)
Lemma cloneDom_returns_document_children_witness :
  @input_ok leaf_env sample_store 2
  /\ exists (A root : loc) st',
       @cloneDom leaf_env 2 sample_state = Normal (A, st')
       /\ get_named (store st') root "children" = VRef A.
Proof.
  split; [exact sample_input_ok|].
  destruct (@cloneDom_returns_document_children leaf_env 2 sample_state sample_input_ok)
    as (A & root & st' & E & _ & _ & Hch & _).
  exists A, root, st'. split; [exact E | exact Hch].
Defined.


(** The run of [cloneDom] on the sample, and on the text node alone. *)
Example cloneDom_sample_run :
  (fun r => match r with
            | Normal (A, st') =>
                Some (A, get_named (store st') A "length",
                      indexed (obj_at (store st') A) !! 0%nat,
                      get_named (store st') 4%positive "parent",
                      get_named (store st') 5%positive "children",
                      cloned st')
            | Throw _ => None
            end) (@cloneDom leaf_env 2 sample_state)
  = Some (3%positive, VNumber 1, Some (VRef 4%positive),
          VRef 5%positive, VRef 3%positive, [VRef 1%positive]).
Proof. vm_compute. reflexivity. Qed.




(** A store with one text node and an array that lists it twice. *)
Definition twin_store : heap :=
  <[1%positive := text_node "hello"]>
  {[2%positive := Object {["length" := VNumber 2]}
                    (<[0%nat := VRef 1%positive]> {[1%nat := VRef 1%positive]})]}.

Lemma twin_object_1 : twin_store !! 1%positive = Some (text_node "hello").
Proof. reflexivity. Qed.

Lemma twin_source_0 : @source_at leaf_env twin_store 2 0 = Some (VRef 1%positive).
Proof. reflexivity. Qed.

Lemma twin_source_1 : @source_at leaf_env twin_store 2 1 = Some (VRef 1%positive).
Proof. reflexivity. Qed.

Lemma twin_sources j v :
  @source_at leaf_env twin_store 2 j = Some v -> v = VRef 1%positive.
Proof.
  destruct j as [|[|j]]; [rewrite twin_source_0 | rewrite twin_source_1 |];
    try congruence.
  unfold source_at. change (has_named twin_store 2 "length") with true.
  change (@ToLength leaf_env (get_named twin_store 2 "length")) with 2.
  cbv iota. rewrite decide_False by lia. discriminate.
Qed.

Lemma twin_input_ok : @input_ok leaf_env twin_store 2.
Proof.
  split.
  { intros l o r Hl Hr. unfold twin_store in Hl.
    rewrite lookup_insert in Hl. destruct (decide (1%positive = l)) as [<-|Hne1].
    - injection Hl as <-. destruct Hr as [[k Hk] | [j Hj]].
      + exfalso. exact (text_node_no_refs _ _ _ Hk).
      + cbn [indexed text_node] in Hj. rewrite lookup_empty in Hj. discriminate.
    - rewrite lookup_singleton in Hl.
      destruct (decide (2%positive = l)) as [<-|Hne2]; [|discriminate].
      injection Hl as <-. apply length_object_refs in Hr. destruct Hr as [i Hi].
      assert (r = 1%positive) as ->.
      { rewrite lookup_insert in Hi. destruct (decide _); [congruence|].
        rewrite lookup_singleton in Hi. destruct (decide _); [congruence | discriminate]. }
      apply elem_of_dom. rewrite twin_object_1. eauto. }
  split; [exists (Object {["length" := VNumber 2]}
                    (<[0%nat := VRef 1%positive]> {[1%nat := VRef 1%positive]}));
          reflexivity|].
  split; [vm_compute; discriminate|].
  intros j v Hv. rewrite (twin_sources j v Hv).
  exists 1%positive, (text_node "hello").
  split; [reflexivity|]. split; [exact twin_object_1|]. split; [reflexivity|].
  intros k r Hk. exfalso. exact (text_node_no_refs _ _ _ Hk).
Qed.

(** X13 on the array that lists one node twice: both slots of the result
    are filled, with two different clones of that node. *)
Lemma cloneDom_clones_distinct_witness :
  @input_ok leaf_env twin_store 2
  /\ exists (A : loc) st' c0 c1,
       @cloneDom leaf_env 2 (State twin_store []) = Normal (A, st')
       /\ indexed (obj_at (store st') A) !! 0%nat = Some (VRef c0)
       /\ indexed (obj_at (store st') A) !! 1%nat = Some (VRef c1)
       /\ @clone_of leaf_env (VRef 1%positive) c0
       /\ @clone_of leaf_env (VRef 1%positive) c1
       /\ c0 <> c1.
Proof.
  split; [exact twin_input_ok|].
  destruct (@cloneDom_clones_distinct leaf_env 2 (State twin_store []) twin_input_ok)
    as (A & st' & E & _ & Hd).
  destruct (Hd 0%nat 1%nat (VRef 1%positive) (VRef 1%positive)
              ltac:(discriminate) twin_source_0 twin_source_1)
    as (c0 & c1 & E0 & E1 & H0 & H1 & Hne).
  exists A, st', c0, c1. repeat (split; [assumption|]). exact Hne.
Defined.

(** The run on that array: the list at 3 holds the clones 4 and 5. *)
Example cloneDom_twin_run :
  (fun r => match r with
            | Normal (A, st') =>
                Some (A, indexed (obj_at (store st') A) !! 0%nat,
                      indexed (obj_at (store st') A) !! 1%nat, cloned st')
            | Throw _ => None
            end) (@cloneDom leaf_env 2 (State twin_store []))
  = Some (3%positive, Some (VRef 4%positive), Some (VRef 5%positive),
          [VRef 1%positive; VRef 1%positive]).
Proof. vm_compute. reflexivity. Qed.


End Dom.
